(** * Secret-santa matcher: a shallow embedding of [algorithm.py] and of the
    template loader of [secret_santa.py], with the properties of the
    specification stated and settled against it.

    Conventions of the embedding.
    - An element is a [string]; a group is the [list] of its elements in
      iteration order; [sets] is the list of groups.
    - [self.matches] is an insertion-ordered Python dict: an association
      list whose keys are kept distinct by [dict_set].
    - The module-level [random] generator is an infinite stream of draws
      [nat -> nat] together with the position of the next draw.
    - [StopIteration] escaping [verify_matches] is the [None] of an
      [option bool].
    - The [while True] of [test_matcher] is run with a bound on the number
      of attempts; running out of the bound is the outcome [OutOfFuel]. *)

From Stdlib Require Import List String Bool Arith Lia.
Import ListNotations.
Open Scope string_scope.
Open Scope list_scope.
Open Scope nat_scope.

(* ================================================================== *)
(** ** algorithm.py *)

Module Algorithm.

(** Python dicts, as far as the matcher uses them. *)
Definition dict := list (string * string).

Definition keys (m : dict) : list string := map fst m.
Definition values (m : dict) : list string := map snd m.

(** [m[k] = v]: overwrite in place when [k] is a key, append otherwise. *)
Fixpoint dict_set (m : dict) (k v : string) : dict :=
  match m with
  | [] => [(k, v)]
  | (k', v') :: t =>
      if String.eqb k k' then (k, v) :: t else (k', v') :: dict_set t k v
  end.

(** [x in l] on a list of strings. *)
Definition mem (x : string) (l : list string) : bool :=
  existsb (String.eqb x) l.

(** [enumerate(l)], counting from [i]. *)
Fixpoint enumerate_from {A : Type} (i : nat) (l : list A) : list (nat * A) :=
  match l with
  | [] => []
  | x :: t => (i, x) :: enumerate_from (S i) t
  end.

Definition enumerate {A : Type} (l : list A) : list (nat * A) :=
  enumerate_from 0 l.

(** The state of a [Matcher] object. *)
Record Matcher := mkMatcher {
  sets : list (list string);
  matches : dict
}.

(** [Matcher.__init__] *)
Definition Matcher_init (ss : list (list string)) : Matcher :=
  mkMatcher ss [].

(** [[(elem, idx) for idx, s in enumerate(self.sets) for elem in s]] *)
Definition all_elements (ss : list (list string)) : list (string * nat) :=
  flat_map (fun p => map (fun elem => (elem, fst p)) (snd p)) (enumerate ss).

(** The first comprehension of the loop body: pending elements of another
    set that are not yet somebody's match. *)
Definition primary_pool (unmatched : list (string * nat))
    (current_set_idx : nat) (m : dict) : list (string * nat) :=
  filter (fun p => negb (snd p =? current_set_idx)
                   && negb (mem (fst p) (values m))) unmatched.

(** The second comprehension: any element of another set, other than the
    current one, that is not yet somebody's match. *)
Definition fallback_pool (elements : list (string * nat))
    (current_elem : string) (current_set_idx : nat) (m : dict)
    : list (string * nat) :=
  filter (fun p => negb (snd p =? current_set_idx)
                   && negb (String.eqb (fst p) current_elem)
                   && negb (mem (fst p) (values m))) elements.

Definition possible_matches (elements unmatched : list (string * nat))
    (current_elem : string) (current_set_idx : nat) (m : dict)
    : list (string * nat) :=
  match primary_pool unmatched current_set_idx m with
  | [] => fallback_pool elements current_elem current_set_idx m
  | pm => pm
  end.

(** The random source: the stream of draws and the position in it. *)
Definition draws := nat -> nat.

(** [random.choice(l)] on a non-empty [l] (head [c]); the draw at position
    [pos] is reduced to an index of [l]. *)
Definition random_choice {A : Type} (r : draws) (pos : nat)
    (c : A) (l : list A) : A :=
  nth (r pos mod List.length l) l c.

(** One iteration of [while unmatched], after [unmatched.pop(0)] returned
    [(current_elem, current_set_idx)] and left [unmatched]. *)
Definition loop_body (r : draws) (elements unmatched : list (string * nat))
    (current : string * nat) (st : dict * nat) : dict * nat :=
  let (m, pos) := st in
  let (current_elem, current_set_idx) := current in
  let pm := possible_matches elements unmatched current_elem current_set_idx m in
  match pm with
  | [] => (m, pos)
  | c :: _ =>
      let match_elem := fst (random_choice r pos c pm) in
      (dict_set m current_elem match_elem, S pos)
  end.

(** [while unmatched: ...] *)
Fixpoint gen_loop (r : draws) (elements unmatched : list (string * nat))
    (st : dict * nat) : dict * nat :=
  match unmatched with
  | [] => st
  | current :: rest =>
      gen_loop r elements rest (loop_body r elements rest current st)
  end.

(** [Matcher.generate_matches]: the returned copy [dict(self.matches)], the
    object after the call, and the position of the random source. *)
Definition generate_matches (r : draws) (self : Matcher) (pos : nat)
    : dict * Matcher * nat :=
  let elements := all_elements (sets self) in
  let unmatched := elements in
  let (m, pos') := gen_loop r elements unmatched (matches self, pos) in
  (m, mkMatcher (sets self) m, pos').

(** [next(i for i, s in enumerate(self.sets) if elem in s)];
    [None] is [StopIteration]. *)
Fixpoint find_set_from (i : nat) (ss : list (list string)) (elem : string)
    : option nat :=
  match ss with
  | [] => None
  | s :: t => if mem elem s then Some i else find_set_from (S i) t elem
  end.

Definition find_set (ss : list (list string)) (elem : string) : option nat :=
  find_set_from 0 ss elem.

(** The union of all the sets ([elements] in [verify_matches]), as the
    list of its distinct elements. *)
Definition universe (ss : list (list string)) : list string :=
  nodup string_dec (List.concat ss).

(** The [for elem, match in self.matches.items()] loop. *)
Fixpoint check_pairs (ss : list (list string)) (items : dict) : option bool :=
  match items with
  | [] => Some true
  | (elem, mtch) :: t =>
      match find_set ss elem with
      | None => None
      | Some elem_set =>
          match find_set ss mtch with
          | None => None
          | Some match_set =>
              if (elem_set =? match_set) then Some false else check_pairs ss t
          end
      end
  end.

(** [Matcher.verify_matches] *)
Definition verify_matches (self : Matcher) : option bool :=
  match matches self with
  | [] => Some false
  | _ =>
      if negb (List.length (matches self)
               =? List.length (universe (sets self)))
      then Some false
      else check_pairs (sets self) (matches self)
  end.

(** What a bounded run of [test_matcher] can end in. *)
Inductive outcome :=
| Returned (m : dict)
| Raised
| OutOfFuel.

(** The [while True] loop of [test_matcher], at most [fuel] attempts. *)
Fixpoint retry_loop (fuel : nat) (r : draws) (matcher : Matcher) (pos : nat)
    : outcome :=
  match fuel with
  | 0 => OutOfFuel
  | S fuel' =>
      let '(m, matcher', pos') := generate_matches r matcher pos in
      match verify_matches matcher' with
      | None => Raised
      | Some true => Returned m
      | Some false => retry_loop fuel' r matcher' pos'
      end
  end.

(** [test_matcher(sets)] *)
Definition test_matcher (fuel : nat) (r : draws) (ss : list (list string))
    : outcome :=
  retry_loop fuel r (Matcher_init ss) 0.

(** The matcher and the random source after [n] calls of
    [generate_matches] on a new [Matcher] (whatever [verify_matches] says
    in between: it changes neither). *)
Fixpoint after_attempts (n : nat) (r : draws) (ss : list (list string))
    : Matcher * nat :=
  match n with
  | 0 => (Matcher_init ss, 0)
  | S n' =>
      let (matcher, pos) := after_attempts n' r ss in
      let '(_, matcher', pos') := generate_matches r matcher pos in
      (matcher', pos')
  end.

(** The configurations the accumulator goes through in the lifetime of a
    matcher: the pending worklist, [self.matches], the random position.
    A call of [generate_matches] loads the worklist and keeps the
    accumulator; each iteration pops one element. *)
Inductive lifetime (r : draws) (ss : list (list string))
    : list (string * nat) -> dict -> nat -> Prop :=
| life_new : lifetime r ss [] [] 0
| life_call : forall m pos,
    lifetime r ss [] m pos ->
    lifetime r ss (all_elements ss) m pos
| life_iter : forall current rest m pos,
    lifetime r ss (current :: rest) m pos ->
    lifetime r ss rest
      (fst (loop_body r (all_elements ss) rest current (m, pos)))
      (snd (loop_body r (all_elements ss) rest current (m, pos))).

(** Every element belongs to at most one group (a group given as a list
    may still repeat an element). *)
Definition groups_disjoint (ss : list (list string)) : Prop :=
  forall e i j s t,
    nth_error ss i = Some s -> nth_error ss j = Some t ->
    In e s -> In e t -> i = j.

(** What every accumulator reached by the generator satisfies: distinct
    keys, distinct values, and every entry joins two worklist elements
    taken with different set indices. *)
Definition well_formed (ss : list (list string)) (m : dict) : Prop :=
  NoDup (keys m) /\ NoDup (values m)
  /\ forall k v, In (k, v) m ->
       exists i j, In (k, i) (all_elements ss)
                   /\ In (v, j) (all_elements ss) /\ i <> j.

End Algorithm.

(* ================================================================== *)
(** ** secret_santa.py: the template loader *)

Module SecretSanta.

(** The exceptions that matter to [EmailTemplate.__init__]: the one it
    catches, and any other. *)
Inductive exn :=
| FileNotFoundError
| OtherError (name : string).

Inductive result (A : Type) :=
| Ok (a : A)
| Raise (e : exn).
Arguments Ok {A} a.
Arguments Raise {A} e.

(** Records of the [logging] module. *)
Inductive level := WARNING.
Definition log_record : Type := level * string.

(** [EmailTemplate.DEFAULT_TEMPLATE] *)
Definition DEFAULT_TEMPLATE : string := "
    ðŸŽ„ Wichtel-Alarm fÃ¼r {{ sender_name }}! ðŸŽ„

    Ho ho hooo! 

    Die Wichtel-Lotterie hat entschieden und Du hast das groÃŸe Los gezogen:
    
    ðŸŽ Trommelwirbel... Du bist der geheime Wichtel fÃ¼r...
    
    *~*~*~* {{ recipient_name }} *~*~*~*

    Ein paar wichtige Wichtel-Regeln:
    ðŸ¤« Pssst! Absolutes Stillschweigen ist Wichtel-Ehrensache!
    ðŸŽ¨ Sei kreativ - die besten Geschenke kommen von Herzen
    ðŸŒŸ Mach's mysteriÃ¶s - lass Dir was Besonderes einfallen
    
    Budget: 20 - 30 Euro
    
    Viel SpaÃŸ beim heimlichen Planen und Basteln! ðŸŽ…
    
    FrÃ¶hliche Wichtel-GrÃ¼ÃŸe,
    Dein Christkind-Bot ðŸŽ„âœ¨
    
    P.S.: Falls Du Fragen hast, antworte einfach nicht auf diese Mail - 
    der Wichtel-Bot kann leider keine Antworten lesen ðŸ¤–
    ".

Section EmailTemplate.

(** jinja2: compiled templates, [Template(source)] and
    [template.render(sender_name=..., recipient_name=...)]. *)
Variable jinja_template : Type.
Variable Template : string -> result jinja_template.
Variable jinja_render : jinja_template -> string -> string -> result string.

(** The file system: what [open(path, 'r')] followed by [f.read()]
    gives. *)
Variable read_file : string -> result string.

Record EmailTemplate := mkEmailTemplate { template : jinja_template }.

(** Truth value of [template_path] ([None] and the empty string are
    false). *)
Definition truthy (template_path : option string) : bool :=
  match template_path with
  | None => false
  | Some p => negb (String.eqb p "")
  end.

Definition build (source : string) : result EmailTemplate :=
  match Template source with
  | Ok t => Ok (mkEmailTemplate t)
  | Raise e => Raise e
  end.

(** The body of the [try]. *)
Definition load_custom (path : string) : result EmailTemplate :=
  match read_file path with
  | Ok source => build source
  | Raise e => Raise e
  end.

(** [EmailTemplate.__init__]: the instance or the exception that
    escapes, and the log after the call. *)
Definition EmailTemplate_init (template_path : option string)
    (log : list log_record) : result EmailTemplate * list log_record :=
  match template_path with
  | Some path =>
      if truthy template_path then
        match load_custom path with
        | Raise FileNotFoundError =>
            (build DEFAULT_TEMPLATE,
             log ++ [(WARNING,
                      ("Template file " ++ path
                       ++ " not found, using default template")%string)])
        | res => (res, log)
        end
      else (build DEFAULT_TEMPLATE, log)
  | None => (build DEFAULT_TEMPLATE, log)
  end.

(** [EmailTemplate.render] *)
Definition render (self : EmailTemplate)
    (sender_name recipient_name : string) : result string :=
  jinja_render (template self) sender_name recipient_name.

(** What a caller gets from rendering with the outcome of a constructor
    call. *)
Definition render_with (made : result EmailTemplate)
    (sender_name recipient_name : string) : result string :=
  match made with
  | Ok self => render self sender_name recipient_name
  | Raise e => Raise e
  end.

End EmailTemplate.

(* ------------------------------------------------------------------ *)
(** *** secret_santa.py: the emailer *)

(** [EmailConfig] *)
Record EmailConfig := mkEmailConfig {
  smtp_server : string;
  port : nat;
  username : string;
  password : string
}.

(** A [MIMEMultipart] message: the headers in the order they were set, and
    the attached text parts with their subtype. *)
Record MIMEMultipart := mkMIMEMultipart {
  headers : list (string * string);
  payload : list (string * string)
}.

(** Records of the emailer's own logger. *)
Inductive severity := ERROR | INFO.
Definition log_entry : Type := severity * string.

(** [d.get(k)] *)
Fixpoint dict_get (d : Algorithm.dict) (k : string) : option string :=
  match d with
  | [] => None
  | (k', v) :: t => if String.eqb k k' then Some v else dict_get t k
  end.

(** [{k: v for d in email_mapping for k, v in d.items()}] *)
Definition make_email_dict (email_mapping : list Algorithm.dict)
    : Algorithm.dict :=
  fold_left (fun acc kv => Algorithm.dict_set acc (fst kv) (snd kv))
    (List.concat email_mapping) [].

(** [[{k: v} for d in unformatted for k, v in d.items()]], the flattening
    done by the script before it calls [send_mails]. *)
Definition flatten_mapping (unformatted : list Algorithm.dict)
    : list Algorithm.dict :=
  map (fun kv => [kv]) (List.concat unformatted).

Section Emailer.

(** jinja2 and the file system, as for [EmailTemplate]. *)
Variable T : Type.
Variable Template : string -> result T.
Variable jinja_render : T -> string -> string -> result string.
Variable read_file : string -> result string.

(** smtplib: the state of a connection, the constructor
    [smtplib.SMTP(host, port)], the three calls made on the connection
    (each leaves a connection and may raise), and what leaving the [with]
    block raises, if anything. *)
Variable smtp : Type.
Variable SMTP : string -> nat -> result smtp.
Variable starttls : smtp -> smtp * option exn.
Variable login : string -> string -> smtp -> smtp * option exn.
Variable send_message : MIMEMultipart -> smtp -> smtp * option exn.
Variable quit : smtp -> option exn.

(** [str(e)] *)
Variable str : exn -> string.

Record SecretSantaEmailer := mkSecretSantaEmailer {
  config : EmailConfig;
  emailer_template : EmailTemplate T
}.

(** [SecretSantaEmailer.__init__]; [template or EmailTemplate()]. *)
Definition SecretSantaEmailer_init (email_config : EmailConfig)
    (template : option (EmailTemplate T)) (log : list log_record)
    : result SecretSantaEmailer * list log_record :=
  match template with
  | Some t => (Ok (mkSecretSantaEmailer email_config t), log)
  | None =>
      match EmailTemplate_init T Template read_file None log with
      | (Ok t, log') => (Ok (mkSecretSantaEmailer email_config t), log')
      | (Raise e, log') => (Raise e, log')
      end
  end.

(** [SecretSantaEmailer._create_email_message] *)
Definition _create_email_message (self : SecretSantaEmailer)
    (to_email sender_name recipient_name : string) : result MIMEMultipart :=
  match render T jinja_render (emailer_template self)
          sender_name recipient_name with
  | Ok body =>
      Ok (mkMIMEMultipart
            [("From", username (config self));
             ("To", to_email);
             ("Subject", "Deine Wichtel-Aufgabe! ðŸŽ„")]
            [(body, "plain")])
  | Raise e => Raise e
  end.

(** What the loop of [send_mails] carries: the connection, the messages
    [send_message] accepted so far, and the log. *)
Definition delivery : Type :=
  smtp * list MIMEMultipart * list log_entry.

(** One iteration of [for sender_name, recipient_name in matches.items()],
    with its [try] and [except Exception]. *)
Definition deliver (self : SecretSantaEmailer) (email_dict : Algorithm.dict)
    (st : delivery) (item : string * string) : delivery :=
  let '(server, sent, log) := st in
  let (sender_name, recipient_name) := item in
  let no_email :=
    (server, sent,
     log ++ [(ERROR, ("No email found for " ++ sender_name)%string)]) in
  match dict_get email_dict sender_name with
  | None => no_email
  | Some sender_email =>
      if String.eqb sender_email "" then no_email
      else
        match _create_email_message self sender_email sender_name
                recipient_name with
        | Raise e =>
            (server, sent,
             log ++ [(ERROR, ("Failed to send email to " ++ sender_name
                              ++ ": " ++ str e)%string)])
        | Ok message =>
            match send_message message server with
            | (server', Some e) =>
                (server', sent,
                 log ++ [(ERROR, ("Failed to send email to " ++ sender_name
                                  ++ ": " ++ str e)%string)])
            | (server', None) =>
                (server', sent ++ [message],
                 log ++ [(INFO, ("Successfully sent assignment email to "
                                 ++ sender_name)%string)])
            end
        end
  end.

(** The body of the [with] block: the exception that leaves it, if any,
    and the connection, the accepted messages and the log at that point. *)
Definition session_body (self : SecretSantaEmailer)
    (matches : Algorithm.dict) (email_dict : Algorithm.dict)
    (server : smtp) (log : list log_entry) : option exn * delivery :=
  match starttls server with
  | (s1, Some e) => (Some e, (s1, [], log))
  | (s1, None) =>
      match login (username (config self)) (password (config self)) s1 with
      | (s2, Some e) => (Some e, (s2, [], log))
      | (s2, None) =>
          (None, fold_left (deliver self email_dict) matches (s2, [], log))
      end
  end.

(** The outer [try]: what escapes the [with] statement. *)
Definition session (self : SecretSantaEmailer)
    (matches : Algorithm.dict) (email_dict : Algorithm.dict)
    (log : list log_entry)
    : option exn * list MIMEMultipart * list log_entry :=
  match SMTP (smtp_server (config self)) (port (config self)) with
  | Raise e => (Some e, [], log)
  | Ok server =>
      let '(raised, (server', sent, log')) :=
        session_body self matches email_dict server log in
      match quit server' with
      | Some e' => (Some e', sent, log')
      | None => (raised, sent, log')
      end
  end.

(** [SecretSantaEmailer.send_mails]: the exception it raises ([None] when
    it returns), the messages the server accepted, and the log after the
    call. *)
Definition send_mails (self : SecretSantaEmailer)
    (matches : Algorithm.dict) (email_mapping : list Algorithm.dict)
    (log : list log_entry)
    : option exn * list MIMEMultipart * list log_entry :=
  let email_dict := make_email_dict email_mapping in
  let '(raised, sent, log') := session self matches email_dict log in
  match raised with
  | Some e =>
      (Some e, sent,
       log' ++ [(ERROR, ("Failed to connect to email server: "
                         ++ str e)%string)])
  | None => (None, sent, log')
  end.

End Emailer.

End SecretSanta.

(* ================================================================== *)
(** ** A notion used to state further properties *)

(** The elements of the universe whose set, as [verify_matches] looks it
    up, is the [g]-th. *)
Definition members_of (ss : list (list string)) (g : nat) : list string :=
  filter (fun e => match Algorithm.find_set ss e with
                   | Some i => i =? g
                   | None => false
                   end) (Algorithm.universe ss).

(* ================================================================== *)
(** ** Properties of the matcher *)

Import Algorithm.

Section DictFacts.

Lemma mem_In (x : string) (l : list string) : mem x l = true <-> In x l.
Proof.
  unfold mem. rewrite existsb_exists. split.
  - intros [y [Hy He]]. apply String.eqb_eq in He. now subst.
  - intros H. exists x. split; [assumption | apply String.eqb_refl].
Qed.

Lemma mem_false (x : string) (l : list string) : mem x l = false <-> ~ In x l.
Proof.
  rewrite <- mem_In. destruct (mem x l); split; congruence.
Qed.

Lemma dict_set_keys (m : dict) (k v k' : string) :
  In k' (keys (dict_set m k v)) <-> k' = k \/ In k' (keys m).
Proof.
  induction m as [|[a b] t IH]; simpl.
  - intuition.
  - destruct (String.eqb_spec k a) as [->|Hne]; simpl.
    + intuition.
    + rewrite IH. intuition.
Qed.

Lemma In_dict_set (m : dict) (k v k' v' : string) :
  In (k', v') (dict_set m k v) -> (k' = k /\ v' = v) \/ In (k', v') m.
Proof.
  induction m as [|[a b] t IH]; simpl.
  - intros [H|[]]. left. now inversion H.
  - destruct (String.eqb_spec k a) as [->|Hne]; simpl.
    + intros [H|H]; [left; now inversion H | right; now right].
    + intros [H|H]; [right; now left |].
      destruct (IH H) as [?|?]; [now left | right; now right].
Qed.

Lemma dict_set_values (m : dict) (k v x : string) :
  In x (values (dict_set m k v)) -> x = v \/ In x (values m).
Proof.
  unfold values. rewrite in_map_iff. intros [[a b] [Hx Hin]]. simpl in Hx. subst b.
  destruct (In_dict_set _ _ _ _ _ Hin) as [[_ ->]|H]; [now left | right].
  apply in_map_iff. now exists (a, x).
Qed.

Lemma dict_set_NoDup_keys (m : dict) (k v : string) :
  NoDup (keys m) -> NoDup (keys (dict_set m k v)).
Proof.
  induction m as [|[a b] t IH]; simpl; intros Hnd.
  - constructor; [intros [] | constructor].
  - inversion Hnd as [|? ? Hnotin Hnd']; subst.
    destruct (String.eqb_spec k a) as [->|Hne]; simpl.
    + now constructor.
    + constructor; [| now apply IH].
      intros Hin. apply dict_set_keys in Hin. destruct Hin as [->|Hin]; tauto.
Qed.

Lemma dict_set_NoDup_values (m : dict) (k v : string) :
  NoDup (values m) -> ~ In v (values m) -> NoDup (values (dict_set m k v)).
Proof.
  induction m as [|[a b] t IH]; simpl; intros Hnd Hv.
  - constructor; [intros [] | constructor].
  - inversion Hnd as [|? ? Hnotin Hnd']; subst.
    destruct (String.eqb_spec k a) as [->|Hne]; simpl.
    + constructor; [tauto | assumption].
    + constructor; [| apply IH; tauto].
      intros Hin. apply dict_set_values in Hin. destruct Hin as [->|Hin]; tauto.
Qed.

Lemma dict_set_length (m : dict) (k v : string) :
  List.length m <= List.length (dict_set m k v).
Proof.
  induction m as [|[a b] t IH]; simpl; [lia |].
  destruct (String.eqb k a); simpl; lia.
Qed.

End DictFacts.

Section ElementFacts.

Lemma In_enumerate_from {A : Type} (l : list A) (i j : nat) (x : A) :
  In (j, x) (enumerate_from i l) <-> i <= j /\ nth_error l (j - i) = Some x.
Proof.
  revert i. induction l as [|y t IH]; intros i; simpl.
  - split; [intros [] | intros [_ H]]. destruct (j - i); discriminate.
  - rewrite IH. split.
    + intros [H | [Hle Hn]].
      * inversion H; subst. rewrite Nat.sub_diag. split; [lia | reflexivity].
      * split; [lia |]. replace (j - i) with (S (j - S i)) by lia. exact Hn.
    + intros [Hle Hn]. destruct (j - i) as [|d] eqn:E.
      * left. simpl in Hn. inversion Hn. f_equal. lia.
      * right. split; [lia |]. simpl in Hn.
        replace (j - S i) with d by lia. exact Hn.
Qed.

Lemma In_all_elements (ss : list (list string)) (e : string) (j : nat) :
  In (e, j) (all_elements ss) <-> exists s, nth_error ss j = Some s /\ In e s.
Proof.
  unfold all_elements, enumerate. rewrite in_flat_map. split.
  - intros [[i s] [Hin He]]. simpl in He. apply in_map_iff in He.
    destruct He as [x [Hx Hxs]]. inversion Hx; subst.
    apply In_enumerate_from in Hin. destruct Hin as [_ Hn].
    rewrite Nat.sub_0_r in Hn. now exists s.
  - intros [s [Hn He]]. exists (j, s). split.
    + apply In_enumerate_from. rewrite Nat.sub_0_r. split; [lia | assumption].
    + simpl. apply in_map_iff. now exists e.
Qed.

Lemma In_universe (ss : list (list string)) (e : string) :
  In e (universe ss) <-> exists j, In (e, j) (all_elements ss).
Proof.
  unfold universe. rewrite nodup_In, in_concat. split.
  - intros [s [Hs He]]. apply In_nth_error in Hs. destruct Hs as [j Hj].
    exists j. apply In_all_elements. now exists s.
  - intros [j Hj]. apply In_all_elements in Hj. destruct Hj as [s [Hn He]].
    exists s. split; [eapply nth_error_In; eassumption | assumption].
Qed.

Lemma find_set_from_Some (ss : list (list string)) (e : string) (i j : nat) :
  find_set_from i ss e = Some j ->
  i <= j /\ exists s, nth_error ss (j - i) = Some s /\ In e s
    /\ forall k t, k < j - i -> nth_error ss k = Some t -> ~ In e t.
Proof.
  revert i. induction ss as [|s t IH]; intros i; simpl; [discriminate |].
  destruct (mem e s) eqn:E.
  - intros H. inversion H; subst. rewrite Nat.sub_diag. split; [lia |].
    exists s. repeat split; [now apply mem_In | intros; lia].
  - intros H. apply IH in H. destruct H as [Hle [u [Hn [He Hfirst]]]].
    split; [lia |]. exists u.
    replace (j - i) with (S (j - S i)) by lia. simpl.
    repeat split; try assumption.
    intros [|k] w Hk Hw; simpl in Hw.
    + inversion Hw; subst. now apply mem_false.
    + apply (Hfirst k); [lia | assumption].
Qed.

Lemma find_set_from_None (ss : list (list string)) (e : string) (i : nat) :
  find_set_from i ss e = None <-> ~ In e (List.concat ss).
Proof.
  revert i. induction ss as [|s t IH]; intros i; simpl.
  - tauto.
  - rewrite in_app_iff. destruct (mem e s) eqn:E.
    + apply mem_In in E. split; [discriminate | tauto].
    + apply mem_false in E. rewrite IH. tauto.
Qed.

(** The lookup of [verify_matches] finds the set of every element of the
    worklist. *)
Lemma find_set_of_element (ss : list (list string)) (e : string) (j : nat) :
  In (e, j) (all_elements ss) -> exists i, find_set ss e = Some i.
Proof.
  intros H. unfold find_set. destruct (find_set_from 0 ss e) eqn:E.
  - now eexists.
  - exfalso. apply find_set_from_None in E. apply E.
    apply In_all_elements in H. destruct H as [s [Hn He]].
    apply in_concat. exists s. split; [eapply nth_error_In; eassumption | assumption].
Qed.

Lemma find_set_sound (ss : list (list string)) (e : string) (i : nat) :
  find_set ss e = Some i -> In (e, i) (all_elements ss).
Proof.
  unfold find_set. intros H. apply find_set_from_Some in H.
  destruct H as [_ [s [Hn [He _]]]]. rewrite Nat.sub_0_r in Hn.
  apply In_all_elements. now exists s.
Qed.

Lemma NoDup_concat_disjoint (ss : list (list string)) :
  NoDup (List.concat ss) -> groups_disjoint ss.
Proof.
  unfold groups_disjoint. induction ss as [|u ss IH]; intros Hnd e i j s t Hi Hj Hs Ht.
  - destruct i; discriminate.
  - simpl in Hnd.
    assert (Hsplit : forall x, In x u -> In x (List.concat ss) -> False).
    { intros x Hx Hy. apply NoDup_app_remove_l in Hnd as Hr.
      clear Hr. revert Hnd Hx Hy. clear. induction u as [|a u IHu]; simpl.
      - tauto.
      - intros Hnd [->|Hx] Hy.
        + inversion Hnd; subst. apply H1. apply in_or_app. now right.
        + inversion Hnd; subst. now apply IHu. }
    apply NoDup_app_remove_l in Hnd.
    destruct i as [|i], j as [|j]; simpl in Hi, Hj.
    + reflexivity.
    + inversion Hi; subst. exfalso. apply (Hsplit e Hs).
      apply in_concat. exists t. split; [eapply nth_error_In; eassumption | assumption].
    + inversion Hj; subst. exfalso. apply (Hsplit e Ht).
      apply in_concat. exists s. split; [eapply nth_error_In; eassumption | assumption].
    + f_equal. eapply IH; eassumption.
Qed.

Lemma disjoint_find_set (ss : list (list string)) (e : string) (i j : nat) :
  groups_disjoint ss ->
  find_set ss e = Some i -> In (e, j) (all_elements ss) -> j = i.
Proof.
  intros Hd Hf Hin. apply find_set_sound in Hf.
  apply In_all_elements in Hf. destruct Hf as [s [Hs Hes]].
  apply In_all_elements in Hin. destruct Hin as [t [Ht Het]].
  eapply Hd; eassumption.
Qed.

End ElementFacts.

Section LoopFacts.

Variable r : draws.

Lemma random_choice_In {A : Type} (pos : nat) (c : A) (l : list A) :
  l <> [] -> In (random_choice r pos c l) l.
Proof.
  intros Hl. unfold random_choice. apply nth_In.
  apply Nat.mod_upper_bound. destruct l; [congruence | simpl; lia].
Qed.

Lemma possible_matches_spec (els um : list (string * nat)) (cur : string)
    (ci : nat) (m : dict) (p : string * nat) :
  In p (possible_matches els um cur ci m) ->
  (In p um \/ (In p els /\ fst p <> cur))
  /\ snd p <> ci /\ ~ In (fst p) (values m).
Proof.
  unfold possible_matches.
  destruct (primary_pool um ci m) as [|q pm] eqn:E.
  - unfold fallback_pool. rewrite filter_In. intros [Hin Hb].
    apply andb_prop in Hb. destruct Hb as [Hb Hv].
    apply andb_prop in Hb. destruct Hb as [Hi He].
    apply negb_true_iff in Hi, He, Hv.
    apply Nat.eqb_neq in Hi. apply String.eqb_neq in He. apply mem_false in Hv.
    tauto.
  - rewrite <- E. unfold primary_pool. rewrite filter_In. intros [Hin Hb].
    apply andb_prop in Hb. destruct Hb as [Hi Hv].
    apply negb_true_iff in Hi, Hv.
    apply Nat.eqb_neq in Hi. apply mem_false in Hv. tauto.
Qed.

(** An iteration either leaves the accumulator alone or records one entry
    whose target comes from a pool. *)
Lemma loop_body_cases (els um : list (string * nat)) (cur : string)
    (ci : nat) (m : dict) (pos : nat) :
  loop_body r els um (cur, ci) (m, pos) = (m, pos)
  \/ exists me j,
       loop_body r els um (cur, ci) (m, pos) = (dict_set m cur me, S pos)
       /\ (In (me, j) um \/ (In (me, j) els /\ me <> cur))
       /\ j <> ci /\ ~ In me (values m).
Proof.
  unfold loop_body.
  destruct (possible_matches els um cur ci m) as [|c pm] eqn:E; [now left |].
  right. rewrite <- E.
  assert (Hin : In (random_choice r pos c (possible_matches els um cur ci m))
                   (possible_matches els um cur ci m)).
  { apply random_choice_In. rewrite E. discriminate. }
  destruct (random_choice r pos c (possible_matches els um cur ci m))
    as [me j] eqn:Ec.
  apply possible_matches_spec in Hin. simpl in Hin.
  exists me, j. simpl. tauto.
Qed.

Lemma loop_body_well_formed (ss : list (list string))
    (um : list (string * nat)) (cur : string) (ci : nat) (m : dict)
    (pos : nat) :
  In (cur, ci) (all_elements ss) -> incl um (all_elements ss) ->
  well_formed ss m ->
  well_formed ss (fst (loop_body r (all_elements ss) um (cur, ci) (m, pos))).
Proof.
  intros Hcur Hum [Hk [Hv Hp]].
  destruct (loop_body_cases (all_elements ss) um cur ci m pos)
    as [-> | [me [j [-> [Hsrc [Hj Hfresh]]]]]]; simpl.
  - repeat split; assumption.
  - assert (Hme : In (me, j) (all_elements ss)).
    { destruct Hsrc as [H | [H _]]; [now apply Hum | assumption]. }
    repeat split.
    + now apply dict_set_NoDup_keys.
    + now apply dict_set_NoDup_values.
    + intros k v Hin. apply In_dict_set in Hin.
      destruct Hin as [[-> ->] | Hin]; [| now apply Hp].
      exists ci, j. repeat split; try assumption. congruence.
Qed.

Lemma gen_loop_well_formed (ss : list (list string))
    (um : list (string * nat)) (m : dict) (pos : nat) :
  incl um (all_elements ss) -> well_formed ss m ->
  well_formed ss (fst (gen_loop r (all_elements ss) um (m, pos))).
Proof.
  revert m pos. induction um as [|[cur ci] rest IH]; intros m pos Hum Hwf.
  - exact Hwf.
  - cbn [gen_loop].
    destruct (loop_body r (all_elements ss) rest (cur, ci) (m, pos))
      as [m' pos'] eqn:E.
    apply IH.
    + intros x Hx. apply Hum. now right.
    + change m' with (fst (m', pos')). rewrite <- E.
      apply loop_body_well_formed; try assumption.
      * apply Hum. now left.
      * intros x Hx. apply Hum. now right.
Qed.

Lemma well_formed_empty (ss : list (list string)) : well_formed ss [].
Proof.
  repeat split; try constructor. intros k v [].
Qed.

Lemma generate_matches_well_formed (self : Matcher) (pos : nat) :
  well_formed (sets self) (matches self) ->
  let '(m, self', _) := generate_matches r self pos in
  m = matches self' /\ sets self' = sets self
  /\ well_formed (sets self) (matches self').
Proof.
  intros Hwf. unfold generate_matches.
  destruct (gen_loop r (all_elements (sets self)) (all_elements (sets self))
              (matches self, pos)) as [m pos'] eqn:E.
  simpl. split; [reflexivity | split; [reflexivity |]].
  change m with (fst (m, pos')). rewrite <- E.
  apply gen_loop_well_formed; [apply incl_refl | assumption].
Qed.

Lemma after_attempts_well_formed (n : nat) (ss : list (list string)) :
  sets (fst (after_attempts n r ss)) = ss
  /\ well_formed ss (matches (fst (after_attempts n r ss))).
Proof.
  induction n as [|n [IHs IHw]]; simpl.
  - split; [reflexivity | apply well_formed_empty].
  - destruct (after_attempts n r ss) as [matcher pos]. simpl in IHs, IHw.
    rewrite <- IHs in IHw.
    pose proof (generate_matches_well_formed matcher pos IHw) as H.
    destruct (generate_matches r matcher pos) as [[m matcher'] pos'].
    destruct H as [_ [Hs Hw]]. simpl. rewrite Hs, IHs in *.
    split; [reflexivity | assumption].
Qed.

Lemma lifetime_well_formed (ss : list (list string))
    (um : list (string * nat)) (m : dict) (pos : nat) :
  lifetime r ss um m pos ->
  incl um (all_elements ss) /\ well_formed ss m.
Proof.
  induction 1 as [| m pos _ [_ IH] | [cur ci] rest m pos _ [Hin IH]].
  - split; [intros x [] | apply well_formed_empty].
  - split; [apply incl_refl | assumption].
  - split.
    + intros x Hx. apply Hin. now right.
    + apply loop_body_well_formed; try assumption.
      * apply Hin. now left.
      * intros x Hx. apply Hin. now right.
Qed.

End LoopFacts.

Section VerifyFacts.

Lemma check_pairs_true (ss : list (list string)) (m : dict) :
  check_pairs ss m = Some true <->
  forall k v, In (k, v) m ->
    exists i j, find_set ss k = Some i /\ find_set ss v = Some j /\ i <> j.
Proof.
  induction m as [|[a b] t IH]; simpl.
  - split; [intros _ k v [] | reflexivity].
  - destruct (find_set ss a) as [i|] eqn:Ea.
    + destruct (find_set ss b) as [j|] eqn:Eb.
      * destruct (Nat.eqb_spec i j) as [->|Hne].
        -- split; [discriminate |]. intros H.
           destruct (H a b (or_introl eq_refl)) as [i' [j' [Hi [Hj Hd]]]].
           congruence.
        -- rewrite IH. split.
           ++ intros H k v [Hkv|Hin]; [| now apply H].
              inversion Hkv; subst. now exists i, j.
           ++ intros H k v Hin. apply H. now right.
      * split; [discriminate |]. intros H.
        destruct (H a b (or_introl eq_refl)) as [i' [j' [Hi [Hj Hd]]]].
        congruence.
    + split; [discriminate |]. intros H.
      destruct (H a b (or_introl eq_refl)) as [i' [j' [Hi [Hj Hd]]]].
      congruence.
Qed.

Lemma check_pairs_defined (ss : list (list string)) (m : dict) :
  (forall k v, In (k, v) m ->
     find_set ss k <> None /\ find_set ss v <> None) ->
  check_pairs ss m <> None.
Proof.
  induction m as [|[a b] t IH]; simpl; intros H; [discriminate |].
  destruct (H a b (or_introl eq_refl)) as [Ha Hb].
  destruct (find_set ss a); [| congruence].
  destruct (find_set ss b); [| congruence].
  destruct (_ =? _); [discriminate |].
  apply IH. intros k v Hin. apply H. now right.
Qed.

Lemma verify_matches_true (self : Matcher) :
  verify_matches self = Some true <->
  matches self <> []
  /\ List.length (matches self) = List.length (universe (sets self))
  /\ forall k v, In (k, v) (matches self) ->
       exists i j, find_set (sets self) k = Some i
                   /\ find_set (sets self) v = Some j /\ i <> j.
Proof.
  unfold verify_matches. rewrite <- check_pairs_true.
  destruct (matches self) as [|p t] eqn:E.
  - split; [discriminate | intros [H _]; congruence].
  - destruct (Nat.eqb_spec (List.length (p :: t))
                (List.length (universe (sets self)))) as [Hl|Hl]; simpl negb; cbv iota.
    + split; [intros H; repeat split; [discriminate | assumption | assumption]
             | intros [_ [_ H]]; exact H].
    + split; [discriminate | intros [_ [H _]]; contradiction].
Qed.

Lemma well_formed_lookups (ss : list (list string)) (m : dict) :
  well_formed ss m ->
  forall k v, In (k, v) m -> find_set ss k <> None /\ find_set ss v <> None.
Proof.
  intros [_ [_ Hp]] k v Hin. destruct (Hp k v Hin) as [i [j [Hk [Hv _]]]].
  apply find_set_of_element in Hk, Hv.
  destruct Hk as [a ->], Hv as [b ->]. split; discriminate.
Qed.

Lemma well_formed_verify_defined (ss : list (list string)) (m : dict) :
  well_formed ss m -> verify_matches (mkMatcher ss m) <> None.
Proof.
  intros Hwf. unfold verify_matches. simpl.
  destruct m as [|p t]; [discriminate |].
  destruct (negb _); [discriminate |].
  apply check_pairs_defined. now apply well_formed_lookups.
Qed.

End VerifyFacts.

Section RetryFacts.

Variable r : draws.

(** A returned assignment is the accumulator of a matcher that passed
    [verify_matches], and the accumulator stayed well formed on the way. *)
Lemma retry_loop_returned (fuel : nat) (matcher : Matcher) (pos : nat)
    (m : dict) :
  well_formed (sets matcher) (matches matcher) ->
  retry_loop fuel r matcher pos = Returned m ->
  well_formed (sets matcher) m
  /\ verify_matches (mkMatcher (sets matcher) m) = Some true.
Proof.
  revert matcher pos. induction fuel as [|fuel IH]; intros matcher pos Hwf.
  - discriminate.
  - cbn [retry_loop].
    pose proof (generate_matches_well_formed r matcher pos Hwf) as H.
    destruct (generate_matches r matcher pos) as [[m' matcher'] pos'].
    destruct H as [Hm [Hs Hw]].
    destruct (verify_matches matcher') as [[|]|] eqn:Ev.
    + intros Hret. injection Hret as <-. rewrite Hm. split; [assumption |].
      rewrite <- Hs. destruct matcher'; exact Ev.
    + intros Hret. rewrite <- Hs. apply (IH matcher' pos'); [| assumption].
      now rewrite Hs.
    + discriminate.
Qed.

(** The accumulator through the whole of a call is a run of [lifetime]. *)
Lemma lifetime_gen_loop (ss : list (list string)) (um : list (string * nat))
    (m : dict) (pos : nat) :
  lifetime r ss um m pos ->
  lifetime r ss []
    (fst (gen_loop r (all_elements ss) um (m, pos)))
    (snd (gen_loop r (all_elements ss) um (m, pos))).
Proof.
  revert m pos. induction um as [|cur rest IH]; intros m pos H.
  - exact H.
  - cbn [gen_loop]. apply life_iter in H.
    destruct (loop_body r (all_elements ss) rest cur (m, pos)) as [m' pos'].
    now apply IH.
Qed.

Lemma lifetime_after_attempts (n : nat) (ss : list (list string)) :
  lifetime r ss [] (matches (fst (after_attempts n r ss)))
    (snd (after_attempts n r ss)).
Proof.
  induction n as [|n IH]; simpl.
  - constructor.
  - pose proof (after_attempts_well_formed r n ss) as [Hs _].
    destruct (after_attempts n r ss) as [matcher pos]. simpl in *.
    unfold generate_matches. rewrite Hs.
    apply life_call, lifetime_gen_loop in IH.
    destruct (gen_loop r (all_elements ss) (all_elements ss)
                (matches matcher, pos)) as [m' pos'].
    exact IH.
Qed.

(** What [test_matcher] returns is the accumulator after some number of
    calls on the one matcher it builds. *)
Lemma retry_loop_after_attempts (fuel n : nat) (ss : list (list string))
    (m : dict) :
  retry_loop fuel r (fst (after_attempts n r ss)) (snd (after_attempts n r ss))
  = Returned m ->
  exists k, n < k /\ k <= n + fuel
            /\ m = matches (fst (after_attempts k r ss))
            /\ verify_matches (fst (after_attempts k r ss)) = Some true.
Proof.
  revert n. induction fuel as [|fuel IH]; intros n; [discriminate |].
  cbn [retry_loop].
  assert (Hnext : after_attempts (S n) r ss
                  = (snd (fst (generate_matches r (fst (after_attempts n r ss))
                                 (snd (after_attempts n r ss)))),
                     snd (generate_matches r (fst (after_attempts n r ss))
                            (snd (after_attempts n r ss))))).
  { simpl. destruct (after_attempts n r ss) as [matcher pos]. simpl.
    destruct (generate_matches r matcher pos) as [[m' matcher'] pos'].
    reflexivity. }
  assert (Hm : fst (fst (generate_matches r (fst (after_attempts n r ss))
                           (snd (after_attempts n r ss))))
               = matches (snd (fst (generate_matches r
                                      (fst (after_attempts n r ss))
                                      (snd (after_attempts n r ss)))))).
  { unfold generate_matches. destruct (gen_loop _ _ _ _). reflexivity. }
  destruct (generate_matches r (fst (after_attempts n r ss))
              (snd (after_attempts n r ss))) as [[m' matcher'] pos'].
  cbn [fst snd] in Hnext, Hm.
  destruct (verify_matches matcher') as [[|]|] eqn:Ev.
  - intros Hret. injection Hret as <-. exists (S n).
    rewrite Hnext. simpl. repeat split; try lia; assumption.
  - intros Hret.
    replace matcher' with (fst (after_attempts (S n) r ss)) in Hret
      by now rewrite Hnext.
    replace pos' with (snd (after_attempts (S n) r ss)) in Hret
      by now rewrite Hnext.
    destruct (IH (S n) Hret) as [k [Hlt [Hle Hk]]].
    exists k. repeat split; try lia; apply Hk.
  - discriminate.
Qed.

Lemma test_matcher_after_attempts (fuel : nat) (ss : list (list string))
    (m : dict) :
  test_matcher fuel r ss = Returned m ->
  exists k, 0 < k /\ k <= fuel
            /\ m = matches (fst (after_attempts k r ss))
            /\ verify_matches (fst (after_attempts k r ss)) = Some true.
Proof.
  intros H. apply (retry_loop_after_attempts fuel 0 ss m H).
Qed.

(** Keys are never removed by a call, and the accumulator never shrinks. *)
Lemma gen_loop_keeps_keys (els um : list (string * nat)) (m : dict)
    (pos : nat) :
  (forall k, In k (keys m) -> In k (keys (fst (gen_loop r els um (m, pos)))))
  /\ List.length m <= List.length (fst (gen_loop r els um (m, pos))).
Proof.
  revert m pos. induction um as [|[cur ci] rest IH]; intros m pos.
  - split; [tauto | simpl; lia].
  - cbn [gen_loop].
    destruct (loop_body_cases r els rest cur ci m pos)
      as [-> | [me [j [-> _]]]].
    + apply IH.
    + destruct (IH (dict_set m cur me) (S pos)) as [Hk Hl]. split.
      * intros k Hin. apply Hk. apply dict_set_keys. now right.
      * pose proof (dict_set_length m cur me). lia.
Qed.

End RetryFacts.

(* ================================================================== *)
(** ** The claims *)

(** C1. Whenever [test_matcher] returns, on any input and so on every
    valid one, the returned assignment has as many entries as the universe
    has elements, its keys are distinct and are exactly the universe, its
    values are distinct and are exactly the universe (a bijection of the
    universe), and for every entry the set found for the key differs from
    the set found for the value; when no element belongs to two groups,
    any group holding the key differs from any group holding the value. *)
Theorem test_matcher_returns_valid (fuel : nat) (r : draws)
    (ss : list (list string)) (m : dict) :
  test_matcher fuel r ss = Returned m ->
  List.length m = List.length (universe ss)
  /\ NoDup (keys m)
  /\ (forall e, In e (universe ss) <-> In e (keys m))
  /\ NoDup (values m)
  /\ (forall e, In e (universe ss) <-> In e (values m))
  /\ (forall k v, In (k, v) m ->
        exists i j, find_set ss k = Some i /\ find_set ss v = Some j
                    /\ i <> j)
  /\ (groups_disjoint ss ->
      forall k v i j s t, In (k, v) m ->
        nth_error ss i = Some s -> In k s ->
        nth_error ss j = Some t -> In v t -> i <> j).
Proof.
  unfold test_matcher. intros Hret.
  apply retry_loop_returned in Hret; [| apply well_formed_empty].
  simpl in Hret. destruct Hret as [[Hk [Hv Hp]] Hver].
  apply verify_matches_true in Hver. simpl in Hver.
  destruct Hver as [_ [Hlen Hcross]].
  assert (Hkin : incl (keys m) (universe ss)).
  { intros k Hin. apply in_map_iff in Hin. destruct Hin as [[a b] [<- Hin]].
    destruct (Hp a b Hin) as [i [_ [Hi _]]]. apply In_universe. now exists i. }
  assert (Hvin : incl (values m) (universe ss)).
  { intros v Hin. apply in_map_iff in Hin. destruct Hin as [[a b] [<- Hin]].
    destruct (Hp a b Hin) as [_ [j [_ [Hj _]]]]. apply In_universe. now exists j. }
  assert (Hkl : List.length (universe ss) <= List.length (keys m)).
  { unfold keys. rewrite length_map. lia. }
  assert (Hvl : List.length (universe ss) <= List.length (values m)).
  { unfold values. rewrite length_map. lia. }
  repeat split; try assumption.
  - apply (NoDup_length_incl Hk Hkl Hkin).
  - apply Hkin.
  - apply (NoDup_length_incl Hv Hvl Hvin).
  - apply Hvin.
  - intros Hd k v i j s t Hin Hi Hks Hj Hvt.
    destruct (Hcross k v Hin) as [i' [j' [Hfi [Hfj Hne]]]].
    assert (i = i').
    { eapply disjoint_find_set; try eassumption.
      apply In_all_elements. now exists s. }
    assert (j = j').
    { eapply disjoint_find_set; try eassumption.
      apply In_all_elements. now exists t. }
    congruence.
Qed.

Lemma test_matcher_returns_valid_witness :
  test_matcher 1 (fun _ => 0) [["A"]; ["B"]]
  = Returned [("A", "B"); ("B", "A")]
  /\ List.length [("A", "B"); ("B", "A")]
     = List.length (universe [["A"]; ["B"]])
  /\ NoDup (keys [("A", "B"); ("B", "A")])
  /\ NoDup (values [("A", "B"); ("B", "A")]).
Proof.
  pose proof (test_matcher_returns_valid 1 (fun _ => 0) [["A"]; ["B"]]
                [("A", "B"); ("B", "A")] eq_refl) as H.
  split; [reflexivity |]. repeat split; apply H.
Defined.

(** C2 (as the code has it). [verify_matches] returns true exactly when the
    assignment is not empty, has as many keys as the universe has
    elements, and every entry joins a key and a value whose sets are found
    and differ. Nothing in it looks at whether two keys share a value. *)
Theorem verify_matches_checks (self : Matcher) :
  (verify_matches self = Some true <->
   matches self <> []
   /\ List.length (matches self) = List.length (universe (sets self))
   /\ forall k v, In (k, v) (matches self) ->
        exists i j, find_set (sets self) k = Some i
                    /\ find_set (sets self) v = Some j /\ i <> j)
  /\ ((forall k v, In (k, v) (matches self) ->
         find_set (sets self) k <> None /\ find_set (sets self) v <> None) ->
      exists b, verify_matches self = Some b).
Proof.
  split; [apply verify_matches_true |].
  intros H. unfold verify_matches.
  destruct (matches self) as [|p t] eqn:E; [now exists false |].
  destruct (negb _); [now exists false |].
  apply check_pairs_defined in H.
  destruct (check_pairs (sets self) (p :: t)) as [b|]; [now exists b | congruence].
Qed.

Lemma verify_matches_checks_witness :
  verify_matches
    (mkMatcher [["A"; "B"]; ["C"; "D"]]
       [("A", "C"); ("B", "D"); ("C", "A"); ("D", "B")]) = Some true
  /\ List.length [("A", "C"); ("B", "D"); ("C", "A"); ("D", "B")]
     = List.length (universe [["A"; "B"]; ["C"; "D"]]).
Proof.
  split; [reflexivity |].
  apply (proj1 (proj1 (verify_matches_checks
                         (mkMatcher [["A"; "B"]; ["C"; "D"]]
                            [("A", "C"); ("B", "D"); ("C", "A"); ("D", "B")])))
               eq_refl).
Defined.

(** C2, the claim as stated fails: this assignment has one key for every
    element of the universe, two of its values occur twice, so that its
    distinct targets are 2 against a universe of 4, and [verify_matches]
    returns true. *)
Lemma verify_matches_accepts_duplicate_targets :
  keys [("A", "C"); ("B", "C"); ("C", "A"); ("D", "A")]
  = universe [["A"; "B"]; ["C"; "D"]]
  /\ ~ NoDup (values [("A", "C"); ("B", "C"); ("C", "A"); ("D", "A")])
  /\ List.length
       (nodup string_dec
          (values [("A", "C"); ("B", "C"); ("C", "A"); ("D", "A")]))
     <> List.length (universe [["A"; "B"]; ["C"; "D"]])
  /\ verify_matches
       (mkMatcher [["A"; "B"]; ["C"; "D"]]
          [("A", "C"); ("B", "C"); ("C", "A"); ("D", "A")]) = Some true.
Proof.
  split; [reflexivity |]. split.
  - intros H. inversion H as [|? ? Hn _]; subst. apply Hn. simpl. tauto.
  - split; [vm_compute; discriminate | reflexivity].
Qed.

(** C7. In every configuration of a matcher's lifetime, after each
    iteration of each call of [generate_matches] on the same accumulator,
    the values of [self.matches] are pairwise distinct. *)
Theorem matches_values_distinct (r : draws) (ss : list (list string))
    (um : list (string * nat)) (m : dict) (pos : nat) :
  lifetime r ss um m pos -> NoDup (values m).
Proof.
  intros H. apply lifetime_well_formed in H. apply H.
Qed.

Lemma matches_values_distinct_witness :
  lifetime (fun _ => 0) [["A"]; ["B"]] [("B", 1)] [("A", "B")] 1
  /\ NoDup (values [("A", "B")]).
Proof.
  assert (H : lifetime (fun _ => 0) [["A"]; ["B"]] [("B", 1)] [("A", "B")] 1).
  { exact (life_iter (fun _ => 0) [["A"]; ["B"]] ("A", 0) [("B", 1)] [] 0
             (life_call _ _ [] 0 (life_new _ _))). }
  split; [exact H |].
  exact (matches_values_distinct _ _ _ _ _ H).
Defined.

(** C10. After any number of calls of [generate_matches] on a matcher,
    both lookups of [verify_matches] find a set for the key and for the
    value of every entry, and [verify_matches] returns a boolean: the
    [StopIteration] outcome is not reachable. *)
Theorem verify_matches_lookups_succeed (n : nat) (r : draws)
    (ss : list (list string)) :
  (forall k v, In (k, v) (matches (fst (after_attempts n r ss))) ->
     (exists i, find_set ss k = Some i)
     /\ (exists j, find_set ss v = Some j))
  /\ (exists b, verify_matches (fst (after_attempts n r ss)) = Some b).
Proof.
  destruct (after_attempts_well_formed r n ss) as [Hs Hw]. split.
  - intros k v Hin. destruct Hw as [_ [_ Hp]].
    destruct (Hp k v Hin) as [i [j [Hk [Hv _]]]].
    split; eapply find_set_of_element; eassumption.
  - apply well_formed_verify_defined in Hw.
    destruct (after_attempts n r ss) as [[ss' m] pos]. simpl in *. subst ss'.
    destruct (verify_matches (mkMatcher ss m)) as [b|]; [now exists b | congruence].
Qed.

(** C6 (as the code has it). When no element belongs to two groups, no
    entry of the accumulator ever maps an element to itself: neither after
    any number of calls of [generate_matches], nor in what [test_matcher]
    returns. *)
Theorem no_self_match (r : draws) (ss : list (list string)) :
  groups_disjoint ss ->
  (forall n k v, In (k, v) (matches (fst (after_attempts n r ss))) -> k <> v)
  /\ (forall fuel m k v,
        test_matcher fuel r ss = Returned m -> In (k, v) m -> k <> v).
Proof.
  intros Hd.
  assert (Hwf : forall m, well_formed ss m ->
                  forall k v, In (k, v) m -> k <> v).
  { intros m [_ [_ Hp]] k v Hin Heq. subst v.
    destruct (Hp k k Hin) as [i [j [Hi [Hj Hne]]]]. apply Hne.
    apply In_all_elements in Hi, Hj.
    destruct Hi as [s [Hs Hks]], Hj as [t [Ht Hkt]].
    eapply Hd; eassumption. }
  split.
  - intros n. apply Hwf. apply after_attempts_well_formed.
  - intros fuel m k v Hret. apply Hwf.
    apply retry_loop_returned in Hret; [apply Hret | apply well_formed_empty].
Qed.

Lemma no_self_match_witness :
  groups_disjoint [["A"; "B"]; ["C"]]
  /\ forall k v,
       In (k, v)
         (matches (fst (after_attempts 2 (fun _ => 0) [["A"; "B"]; ["C"]]))) ->
       k <> v.
Proof.
  assert (Hd : groups_disjoint [["A"; "B"]; ["C"]]).
  { apply NoDup_concat_disjoint. simpl.
    repeat constructor; simpl; intuition discriminate. }
  split; [exact Hd |].
  exact (proj1 (no_self_match (fun _ => 0) [["A"; "B"]; ["C"]] Hd) 2).
Defined.

(** C6, the claim as stated fails: with the same element in two groups the
    first pool offers the element to itself, and the call records it. *)
Lemma self_match_on_shared_element :
  fst (fst (generate_matches (fun _ => 0) (Matcher_init [["A"]; ["A"]]) 0))
  = [("A", "A")].
Proof.
  reflexivity.
Qed.

(** C3 (as the code has it). A call of [generate_matches] starts from the
    accumulator the matcher holds, which is empty only for a new matcher:
    the call returns the accumulator it leaves, leaves the sets alone,
    keeps every key the accumulator had and never makes it shorter; and
    after an attempt that fails validation the retry loop goes on with the
    matcher that attempt left. *)
Theorem generate_matches_keeps_entries (r : draws) (self : Matcher)
    (pos : nat) :
  matches (Matcher_init (sets self)) = []
  /\ fst (fst (generate_matches r self pos))
     = matches (snd (fst (generate_matches r self pos)))
  /\ sets (snd (fst (generate_matches r self pos))) = sets self
  /\ (forall k, In k (keys (matches self)) ->
        In k (keys (fst (fst (generate_matches r self pos)))))
  /\ List.length (matches self)
     <= List.length (fst (fst (generate_matches r self pos)))
  /\ (forall fuel,
        verify_matches (snd (fst (generate_matches r self pos)))
        = Some false ->
        retry_loop (S fuel) r self pos
        = retry_loop fuel r (snd (fst (generate_matches r self pos)))
            (snd (generate_matches r self pos))).
Proof.
  assert (Hretry : forall fuel,
            verify_matches (snd (fst (generate_matches r self pos)))
            = Some false ->
            retry_loop (S fuel) r self pos
            = retry_loop fuel r (snd (fst (generate_matches r self pos)))
                (snd (generate_matches r self pos))).
  { intros fuel. cbn [retry_loop].
    destruct (generate_matches r self pos) as [[m self'] pos'].
    cbn [fst snd]. intros ->. reflexivity. }
  revert Hretry. unfold generate_matches.
  pose proof (gen_loop_keeps_keys r (all_elements (sets self))
                (all_elements (sets self)) (matches self) pos) as [Hk Hl].
  destruct (gen_loop r (all_elements (sets self)) (all_elements (sets self))
              (matches self, pos)) as [m pos'].
  simpl in *. intros Hretry. repeat split; assumption.
Qed.

(** C3, the claim as stated fails: on three groups the first attempt
    leaves three entries and fails validation; the second attempt starts
    from these three entries, finds no candidate for B, and the assignment
    that [test_matcher] returns holds the entry B -> C of the failed
    attempt. From an empty accumulator the same draws give the failing
    assignment again. *)
Lemma failed_attempt_is_carried_over :
  matches (fst (after_attempts 1 (fun _ => 0) [["A"]; ["B"]; ["C"; "D"]]))
  = [("A", "B"); ("B", "C"); ("C", "A")]
  /\ verify_matches
       (fst (after_attempts 1 (fun _ => 0) [["A"]; ["B"]; ["C"; "D"]]))
     = Some false
  /\ test_matcher 2 (fun _ => 0) [["A"]; ["B"]; ["C"; "D"]]
     = Returned [("A", "D"); ("B", "C"); ("C", "B"); ("D", "A")]
  /\ fst (fst (generate_matches (fun _ => 0)
                 (Matcher_init [["A"]; ["B"]; ["C"; "D"]]) 3))
     = [("A", "B"); ("B", "C"); ("C", "A")].
Proof.
  repeat split; reflexivity.
Qed.

Section Hangs.

Variable r : draws.

Lemma filter_none {A : Type} (f : A -> bool) (l : list A) :
  (forall x, In x l -> f x = false) -> filter f l = [].
Proof.
  induction l as [|a t IH]; simpl; intros H; [reflexivity |].
  rewrite (H a (or_introl eq_refl)). apply IH. intros x Hx. apply H. now right.
Qed.

(** With every element in the set of the current one, both pools are
    empty. *)
Lemma possible_matches_same_set (els um : list (string * nat))
    (cur : string) (ci : nat) (m : dict) :
  (forall p, In p els -> snd p = ci) -> (forall p, In p um -> snd p = ci) ->
  possible_matches els um cur ci m = [].
Proof.
  intros Hels Hum. unfold possible_matches, primary_pool, fallback_pool.
  rewrite filter_none.
  - apply filter_none. intros p Hp. rewrite (Hels p Hp), Nat.eqb_refl. reflexivity.
  - intros p Hp. rewrite (Hum p Hp), Nat.eqb_refl. reflexivity.
Qed.

Lemma gen_loop_same_set (els um : list (string * nat)) (st : dict * nat)
    (c : nat) :
  (forall p, In p els -> snd p = c) -> (forall p, In p um -> snd p = c) ->
  gen_loop r els um st = st.
Proof.
  intros Hels. revert st. induction um as [|[cur ci] rest IH]; intros st Hum.
  - reflexivity.
  - cbn [gen_loop]. destruct st as [m pos].
    assert (Hci : ci = c) by apply (Hum (cur, ci) (or_introl eq_refl)).
    subst ci. unfold loop_body.
    rewrite possible_matches_same_set;
      [| assumption | intros p Hp; apply Hum; now right].
    apply IH. intros p Hp. apply Hum. now right.
Qed.

(** A matcher whose calls never touch the accumulator is retried for
    ever. *)
Lemma retry_loop_stuck (fuel : nat) (ss : list (list string)) (pos : nat) :
  (forall st, gen_loop r (all_elements ss) (all_elements ss) st = st) ->
  retry_loop fuel r (Matcher_init ss) pos = OutOfFuel.
Proof.
  intros Hid. revert pos. induction fuel as [|fuel IH]; intros pos.
  - reflexivity.
  - cbn [retry_loop]. unfold generate_matches. rewrite Hid. simpl. apply IH.
Qed.

Lemma after_attempts_stuck (n : nat) (ss : list (list string)) :
  (forall st, gen_loop r (all_elements ss) (all_elements ss) st = st) ->
  after_attempts n r ss = (Matcher_init ss, 0).
Proof.
  intros Hid. induction n as [|n IH]; simpl; [reflexivity |].
  rewrite IH. unfold generate_matches. rewrite Hid. reflexivity.
Qed.

Lemma single_group_index (ss : list (list string)) (c : nat)
    (p : string * nat) :
  (forall i s, nth_error ss i = Some s -> s <> [] -> i = c) ->
  In p (all_elements ss) -> snd p = c.
Proof.
  destruct p as [e j]. intros Hone H. apply In_all_elements in H.
  destruct H as [s [Hn He]]. simpl. apply (Hone j s Hn).
  intros ->. exact He.
Qed.

Lemma empty_universe_elements (ss : list (list string)) :
  List.concat ss = [] -> all_elements ss = [].
Proof.
  intros Hc. destruct (all_elements ss) as [|[e j] t] eqn:E; [reflexivity |].
  exfalso. assert (Hin : In (e, j) (all_elements ss)) by (rewrite E; now left).
  apply In_all_elements in Hin. destruct Hin as [s [Hn He]].
  assert (Hcc : In e (List.concat ss)).
  { apply in_concat. exists s. split; [eapply nth_error_In; eassumption | assumption]. }
  rewrite Hc in Hcc. exact Hcc.
Qed.

End Hangs.

(** C4. When at most one position [c] of the input holds a non-empty
    group (in particular when the input is one non-empty group), whatever
    the draws: every attempt leaves the accumulator empty and fails
    [verify_matches], no assignment at all passes [verify_matches], and
    [test_matcher] returns within no number of attempts. *)
Theorem single_group_never_returns (ss : list (list string)) (c : nat)
    (r : draws) :
  (forall i s, nth_error ss i = Some s -> s <> [] -> i = c) ->
  (forall n,
     matches (fst (after_attempts n r ss)) = []
     /\ verify_matches (fst (after_attempts n r ss)) = Some false)
  /\ (forall m, verify_matches (mkMatcher ss m) <> Some true)
  /\ (forall fuel, test_matcher fuel r ss = OutOfFuel).
Proof.
  intros Hone.
  assert (Hid : forall st,
            gen_loop r (all_elements ss) (all_elements ss) st = st).
  { intros st. apply (gen_loop_same_set r _ _ st c);
      intros p; now apply single_group_index. }
  split; [| split].
  - intros n. rewrite (after_attempts_stuck r n ss Hid). split; reflexivity.
  - intros m Hv. apply verify_matches_true in Hv. simpl in Hv.
    destruct Hv as [Hne [_ Hp]]. destruct m as [|[k v] t]; [congruence |].
    destruct (Hp k v (or_introl eq_refl)) as [i [j [Hi [Hj Hd]]]].
    apply find_set_sound, (single_group_index ss c) in Hi, Hj;
      try assumption.
    simpl in Hi, Hj. congruence.
  - intros fuel. apply retry_loop_stuck. exact Hid.
Qed.

Lemma single_group_never_returns_witness :
  (forall i s, nth_error [["A"; "B"; "C"]] i = Some s -> s <> [] -> i = 0)
  /\ test_matcher 7 (fun n => n) [["A"; "B"; "C"]] = OutOfFuel.
Proof.
  assert (H : forall i s,
            nth_error [["A"; "B"; "C"]] i = Some s -> s <> [] -> i = 0).
  { intros [|[|i]] s Hn _; [reflexivity | discriminate | discriminate]. }
  split; [exact H |].
  exact (proj2 (proj2 (single_group_never_returns [["A"; "B"; "C"]] 0
                         (fun n => n) H)) 7).
Defined.

(** C9. [verify_matches] returns false on an empty assignment; and when
    the universe is empty (no group, or only empty groups) every attempt
    leaves the assignment empty, fails [verify_matches], and
    [test_matcher] returns within no number of attempts. *)
Theorem empty_universe_never_returns (ss : list (list string)) (r : draws) :
  verify_matches (Matcher_init ss) = Some false
  /\ (List.concat ss = [] ->
      (forall n,
         matches (fst (after_attempts n r ss)) = []
         /\ verify_matches (fst (after_attempts n r ss)) = Some false)
      /\ (forall fuel, test_matcher fuel r ss = OutOfFuel)).
Proof.
  split; [reflexivity |]. intros Hc.
  assert (Hid : forall st,
            gen_loop r (all_elements ss) (all_elements ss) st = st).
  { intros st. rewrite (empty_universe_elements ss Hc). reflexivity. }
  split.
  - intros n. rewrite (after_attempts_stuck r n ss Hid). split; reflexivity.
  - intros fuel. apply retry_loop_stuck. exact Hid.
Qed.

Lemma empty_universe_never_returns_witness :
  List.concat [[]; @nil string] = []
  /\ test_matcher 5 (fun _ => 0) [[]; []] = OutOfFuel.
Proof.
  split; [reflexivity |].
  exact (proj2 (proj2 (empty_universe_never_returns [[]; []] (fun _ => 0))
                  eq_refl) 5).
Defined.

(** C5. With two groups of one element each, the two elements distinct,
    and whatever the draws: the first call of [generate_matches] gives the
    2-cycle, [verify_matches] accepts it, and [test_matcher] returns it at
    the first attempt. *)
Theorem two_singletons_return_cycle (a b : string) (r : draws) :
  a <> b ->
  fst (fst (generate_matches r (Matcher_init [[a]; [b]]) 0))
  = [(a, b); (b, a)]
  /\ verify_matches (mkMatcher [[a]; [b]] [(a, b); (b, a)]) = Some true
  /\ forall fuel, test_matcher (S fuel) r [[a]; [b]]
                  = Returned [(a, b); (b, a)].
Proof.
  intros Hab.
  assert (Eab : String.eqb a b = false) by now apply String.eqb_neq.
  assert (Eba : String.eqb b a = false)
    by (apply String.eqb_neq; congruence).
  assert (Hgen : generate_matches r (Matcher_init [[a]; [b]]) 0
                 = ([(a, b); (b, a)],
                    mkMatcher [[a]; [b]] [(a, b); (b, a)], 2)).
  { assert (Hone : forall pos c (x : string * nat),
              random_choice r pos c [x] = x).
    { intros pos c x. unfold random_choice. simpl List.length.
      rewrite Nat.mod_1_r. reflexivity. }
    assert (H1 : possible_matches [(a, 0); (b, 1)] [(b, 1)] a 0 []
                 = [(b, 1)]) by reflexivity.
    assert (H2 : possible_matches [(a, 0); (b, 1)] [] b 1 [(a, b)]
                 = [(a, 0)]).
    { unfold possible_matches, primary_pool, fallback_pool. simpl.
      rewrite Eab. reflexivity. }
    unfold generate_matches, all_elements, enumerate.
    cbn [flat_map enumerate_from map fst snd app sets matches Matcher_init
         gen_loop].
    unfold loop_body. rewrite H1, Hone. cbn [fst dict_set].
    rewrite H2, Hone. cbn [fst dict_set]. rewrite Eba. reflexivity. }
  assert (Hver : verify_matches (mkMatcher [[a]; [b]] [(a, b); (b, a)])
                 = Some true).
  { unfold verify_matches, universe. simpl.
    destruct (string_dec b a) as [Heq|_]; [congruence |].
    destruct (string_dec a b) as [Heq|_]; [congruence |]. simpl.
    unfold find_set. simpl.
    rewrite !String.eqb_refl, Eba. reflexivity. }
  split; [now rewrite Hgen |]. split; [exact Hver |].
  intros fuel. unfold test_matcher. cbn [retry_loop].
  rewrite Hgen, Hver. reflexivity.
Qed.

Lemma two_singletons_return_cycle_witness :
  "A" <> "B"
  /\ test_matcher 1 (fun n => n) [["A"]; ["B"]]
     = Returned [("A", "B"); ("B", "A")].
Proof.
  assert (H : "A" <> "B") by discriminate.
  split; [exact H |].
  exact (proj2 (proj2 (two_singletons_return_cycle "A" "B" (fun n => n) H)) 0).
Defined.

(* ================================================================== *)
(** ** Properties of the template loader *)

Import SecretSanta.

(** C8. Constructing an [EmailTemplate] with a path that is supplied and
    whose file is not found gives exactly the instance that no path gives,
    and appends one warning to the log; given that the default template
    compiles, no exception escapes, and rendering gives what it gives
    without a custom path. *)
Theorem missing_template_falls_back (T : Type)
    (Template : string -> result T)
    (jinja_render : T -> string -> string -> result string)
    (read_file : string -> result string)
    (path : string) (log : list log_record) (t : T) :
  truthy (Some path) = true ->
  read_file path = Raise FileNotFoundError ->
  Template DEFAULT_TEMPLATE = Ok t ->
  EmailTemplate_init T Template read_file (Some path) log
  = (Ok (mkEmailTemplate T t),
     log ++ [(WARNING,
              ("Template file " ++ path
               ++ " not found, using default template")%string)])
  /\ EmailTemplate_init T Template read_file None log
     = (Ok (mkEmailTemplate T t), log)
  /\ forall sender_name recipient_name,
       render_with T jinja_render
         (fst (EmailTemplate_init T Template read_file (Some path) log))
         sender_name recipient_name
       = render_with T jinja_render
           (fst (EmailTemplate_init T Template read_file None log))
           sender_name recipient_name.
Proof.
  intros Htruthy Hread Hdefault.
  assert (Hcustom : EmailTemplate_init T Template read_file (Some path) log
            = (Ok (mkEmailTemplate T t),
               log ++ [(WARNING,
                        ("Template file " ++ path
                         ++ " not found, using default template")%string)])).
  { unfold EmailTemplate_init. rewrite Htruthy.
    unfold load_custom. rewrite Hread.
    unfold build. rewrite Hdefault. reflexivity. }
  assert (Hnone : EmailTemplate_init T Template read_file None log
            = (Ok (mkEmailTemplate T t), log)).
  { unfold EmailTemplate_init, build. rewrite Hdefault. reflexivity. }
  split; [exact Hcustom |]. split; [exact Hnone |].
  intros sender_name recipient_name. rewrite Hcustom, Hnone. reflexivity.
Qed.

Lemma missing_template_falls_back_witness :
  truthy (Some "custom.j2") = true
  /\ EmailTemplate_init string (fun source => Ok source)
       (fun _ => Raise FileNotFoundError) (Some "custom.j2") []
     = (Ok (mkEmailTemplate string DEFAULT_TEMPLATE),
        [(WARNING,
          "Template file custom.j2 not found, using default template")]).
Proof.
  split; [reflexivity |].
  exact (proj1 (missing_template_falls_back string (fun source => Ok source)
                  (fun source s rcp => Ok (source ++ s ++ rcp)%string)
                  (fun _ => Raise FileNotFoundError)
                  "custom.j2" [] DEFAULT_TEMPLATE
                  eq_refl eq_refl eq_refl)).
Defined.

(* ================================================================== *)
(** ** Further properties of the matcher *)

Section AccumulatorFacts.

Variable r : draws.

Lemma after_attempts_S (n : nat) (ss : list (list string)) :
  after_attempts (S n) r ss
  = (snd (fst (generate_matches r (fst (after_attempts n r ss))
                 (snd (after_attempts n r ss)))),
     snd (generate_matches r (fst (after_attempts n r ss))
            (snd (after_attempts n r ss)))).
Proof.
  simpl. destruct (after_attempts n r ss) as [matcher pos]. simpl.
  destruct (generate_matches r matcher pos) as [[m matcher'] pos'].
  reflexivity.
Qed.

Lemma well_formed_keys_incl (ss : list (list string)) (m : dict) :
  well_formed ss m -> incl (keys m) (universe ss).
Proof.
  intros [_ [_ Hp]] k Hin. apply in_map_iff in Hin.
  destruct Hin as [[a b] [<- Hin]].
  destruct (Hp a b Hin) as [i [_ [Hi _]]]. apply In_universe. now exists i.
Qed.

Lemma well_formed_values_incl (ss : list (list string)) (m : dict) :
  well_formed ss m -> incl (values m) (universe ss).
Proof.
  intros [_ [_ Hp]] v Hin. apply in_map_iff in Hin.
  destruct Hin as [[a b] [<- Hin]].
  destruct (Hp a b Hin) as [_ [j [_ [Hj _]]]]. apply In_universe. now exists j.
Qed.

(** On groups that share no element the set found for an element of the
    worklist is the set it was listed with. *)
Lemma well_formed_cross (ss : list (list string)) (m : dict) :
  groups_disjoint ss -> well_formed ss m ->
  forall k v, In (k, v) m ->
    exists i j, find_set ss k = Some i /\ find_set ss v = Some j /\ i <> j.
Proof.
  intros Hd [_ [_ Hp]] k v Hin.
  destruct (Hp k v Hin) as [i [j [Hi [Hj Hne]]]].
  destruct (find_set_of_element _ _ _ Hi) as [i' Hi'].
  destruct (find_set_of_element _ _ _ Hj) as [j' Hj'].
  exists i', j'. repeat split; try assumption.
  rewrite <- (disjoint_find_set ss k i' i Hd Hi' Hi).
  rewrite <- (disjoint_find_set ss v j' j Hd Hj' Hj). exact Hne.
Qed.

Lemma retry_loop_never_raises (fuel : nat) (matcher : Matcher) (pos : nat) :
  well_formed (sets matcher) (matches matcher) ->
  retry_loop fuel r matcher pos <> Raised.
Proof.
  revert matcher pos. induction fuel as [|fuel IH]; intros matcher pos Hwf.
  - discriminate.
  - cbn [retry_loop].
    pose proof (generate_matches_well_formed r matcher pos Hwf) as H.
    destruct (generate_matches r matcher pos) as [[m' matcher'] pos'].
    destruct H as [_ [Hs Hw]].
    pose proof (well_formed_verify_defined _ _ Hw) as Hdef.
    rewrite <- Hs in Hdef.
    replace (mkMatcher (sets matcher') (matches matcher')) with matcher'
      in Hdef by (destruct matcher'; reflexivity).
    destruct (verify_matches matcher') as [[|]|]; [discriminate | | congruence].
    apply IH. now rewrite Hs.
Qed.

End AccumulatorFacts.

(** X1. After any number of calls of [generate_matches] on a matcher the
    accumulator is a partial assignment inside the universe: its keys are
    distinct, its keys and its values are elements of the universe, and it
    has at most as many entries as the universe has elements. *)
Theorem accumulator_within_universe (n : nat) (r : draws)
    (ss : list (list string)) :
  NoDup (keys (matches (fst (after_attempts n r ss))))
  /\ incl (keys (matches (fst (after_attempts n r ss)))) (universe ss)
  /\ incl (values (matches (fst (after_attempts n r ss)))) (universe ss)
  /\ List.length (matches (fst (after_attempts n r ss)))
     <= List.length (universe ss).
Proof.
  destruct (after_attempts_well_formed r n ss) as [_ Hw].
  pose proof (well_formed_keys_incl _ _ Hw) as Hk.
  pose proof (well_formed_values_incl _ _ Hw) as Hv.
  destruct Hw as [Hnd _].
  repeat split; try assumption.
  rewrite <- (length_map fst). apply NoDup_incl_length; assumption.
Qed.

(** X2. [test_matcher] never raises: whatever the input, the draws and the
    number of attempts allowed, the [StopIteration] of a failed lookup in
    [verify_matches] does not escape. *)
Theorem test_matcher_never_raises (fuel : nat) (r : draws)
    (ss : list (list string)) :
  test_matcher fuel r ss <> Raised.
Proof.
  unfold test_matcher. apply retry_loop_never_raises. apply well_formed_empty.
Qed.

(** X3. When no element belongs to two groups, validation of a generated
    assignment can only fail on its size: after any number of calls,
    [verify_matches] returns true exactly when the accumulator is not empty
    and has as many entries as the universe has elements. *)
Theorem disjoint_validation_is_size_check (n : nat) (r : draws)
    (ss : list (list string)) :
  groups_disjoint ss ->
  (verify_matches (fst (after_attempts n r ss)) = Some true <->
   matches (fst (after_attempts n r ss)) <> []
   /\ List.length (matches (fst (after_attempts n r ss)))
      = List.length (universe ss)).
Proof.
  intros Hd. destruct (after_attempts_well_formed r n ss) as [Hs Hw].
  rewrite verify_matches_true, Hs. split.
  - intros [Hne [Hl _]]. now split.
  - intros [Hne Hl]. repeat split; try assumption.
    now apply well_formed_cross.
Qed.

Lemma disjoint_validation_is_size_check_witness :
  groups_disjoint [["A"]; ["B"]; ["C"; "D"]]
  /\ (verify_matches
        (fst (after_attempts 2 (fun _ => 0) [["A"]; ["B"]; ["C"; "D"]]))
      = Some true <->
      matches (fst (after_attempts 2 (fun _ => 0) [["A"]; ["B"]; ["C"; "D"]]))
      <> []
      /\ List.length
           (matches
              (fst (after_attempts 2 (fun _ => 0) [["A"]; ["B"]; ["C"; "D"]])))
         = List.length (universe [["A"]; ["B"]; ["C"; "D"]])).
Proof.
  assert (Hd : groups_disjoint [["A"]; ["B"]; ["C"; "D"]]).
  { apply NoDup_concat_disjoint. simpl.
    repeat constructor; simpl; intuition discriminate. }
  split; [exact Hd |].
  exact (disjoint_validation_is_size_check 2 (fun _ => 0)
           [["A"]; ["B"]; ["C"; "D"]] Hd).
Defined.

Section PoolFacts.

Variable r : draws.

Lemma primary_pool_In (um : list (string * nat)) (ci : nat) (m : dict)
    (p : string * nat) :
  In p (primary_pool um ci m) <->
  In p um /\ snd p <> ci /\ ~ In (fst p) (values m).
Proof.
  unfold primary_pool. rewrite filter_In, andb_true_iff, !negb_true_iff.
  rewrite Nat.eqb_neq, mem_false. tauto.
Qed.

Lemma fallback_pool_In (els : list (string * nat)) (cur : string) (ci : nat)
    (m : dict) (p : string * nat) :
  In p (fallback_pool els cur ci m) <->
  In p els /\ snd p <> ci /\ fst p <> cur /\ ~ In (fst p) (values m).
Proof.
  unfold fallback_pool.
  rewrite filter_In, !andb_true_iff, !negb_true_iff.
  rewrite Nat.eqb_neq, String.eqb_neq, mem_false. tauto.
Qed.

Lemma possible_matches_primary (els um : list (string * nat)) (cur : string)
    (ci : nat) (m : dict) :
  primary_pool um ci m <> [] ->
  possible_matches els um cur ci m = primary_pool um ci m.
Proof.
  unfold possible_matches. destruct (primary_pool um ci m); congruence.
Qed.

Lemma possible_matches_fallback (els um : list (string * nat)) (cur : string)
    (ci : nat) (m : dict) :
  primary_pool um ci m = [] ->
  possible_matches els um cur ci m = fallback_pool els cur ci m.
Proof.
  unfold possible_matches. intros ->. reflexivity.
Qed.

(** An iteration records a target taken from the pool whenever the pool is
    not empty. *)
Lemma loop_body_records (els um : list (string * nat)) (cur : string)
    (ci : nat) (m : dict) (pos : nat) :
  possible_matches els um cur ci m <> [] ->
  exists me j,
    In (me, j) (possible_matches els um cur ci m)
    /\ loop_body r els um (cur, ci) (m, pos) = (dict_set m cur me, S pos).
Proof.
  intros Hne. unfold loop_body.
  destruct (possible_matches els um cur ci m) as [|c pm] eqn:E;
    [congruence |].
  pose proof (random_choice_In r pos c (c :: pm) Hne) as Hin.
  destruct (random_choice r pos c (c :: pm)) as [me j].
  exists me, j. split; [exact Hin | reflexivity].
Qed.

Lemma loop_body_skips (els um : list (string * nat)) (cur : string)
    (ci : nat) (m : dict) (pos : nat) :
  possible_matches els um cur ci m = [] ->
  loop_body r els um (cur, ci) (m, pos) = (m, pos).
Proof.
  intros E. unfold loop_body. rewrite E. reflexivity.
Qed.

Lemma list_empty_iff {A : Type} (l : list A) :
  l = [] <-> forall x, ~ In x l.
Proof.
  split.
  - intros -> x [].
  - intros H. destruct l as [|a t]; [reflexivity |].
    exfalso. apply (H a). now left.
Qed.

(** Nothing is recorded once every element is somebody's target. *)
Lemma gen_loop_saturated (els um : list (string * nat)) (m : dict)
    (pos : nat) :
  incl um els -> (forall p, In p els -> In (fst p) (values m)) ->
  gen_loop r els um (m, pos) = (m, pos).
Proof.
  intros Hum Hsat. induction um as [|[cur ci] rest IH]; [reflexivity |].
  cbn [gen_loop]. rewrite loop_body_skips.
  - apply IH. intros p Hp. apply Hum. now right.
  - apply list_empty_iff. intros p Hp. apply possible_matches_spec in Hp.
    destruct Hp as [Hsrc [_ Hfree]]. apply Hfree. apply Hsat.
    destruct Hsrc as [H | [H _]]; [apply Hum; now right | exact H].
Qed.

Lemma generate_matches_saturated (self : Matcher) (pos : nat) :
  incl (universe (sets self)) (values (matches self)) ->
  generate_matches r self pos = (matches self, self, pos).
Proof.
  intros Hsat. unfold generate_matches. rewrite gen_loop_saturated.
  - destruct self; reflexivity.
  - apply incl_refl.
  - intros [e j] Hp. apply Hsat. apply In_universe. now exists j.
Qed.

End PoolFacts.

(** X4. The two-tier choice of a target in one iteration for the element
    [cur] of set [ci]. If some pending element of another set is nobody's
    target yet, the iteration records such a pending element. Otherwise, if
    some element of another set, other than [cur], is nobody's target, it
    records such an element. Otherwise it records nothing and draws
    nothing. *)
Theorem candidate_policy (r : draws) (els um : list (string * nat))
    (cur : string) (ci : nat) (m : dict) (pos : nat) :
  ((exists p, In p um /\ snd p <> ci /\ ~ In (fst p) (values m)) ->
   exists me j,
     loop_body r els um (cur, ci) (m, pos) = (dict_set m cur me, S pos)
     /\ In (me, j) um /\ j <> ci /\ ~ In me (values m))
  /\ ((forall p, In p um -> snd p <> ci -> In (fst p) (values m)) ->
      (exists p, In p els /\ snd p <> ci /\ fst p <> cur
                 /\ ~ In (fst p) (values m)) ->
      exists me j,
        loop_body r els um (cur, ci) (m, pos) = (dict_set m cur me, S pos)
        /\ In (me, j) els /\ j <> ci /\ me <> cur /\ ~ In me (values m))
  /\ ((forall p, In p um -> snd p <> ci -> In (fst p) (values m)) ->
      (forall p, In p els -> snd p <> ci -> fst p <> cur ->
                 In (fst p) (values m)) ->
      loop_body r els um (cur, ci) (m, pos) = (m, pos)).
Proof.
  assert (Hprim_empty :
            (forall p, In p um -> snd p <> ci -> In (fst p) (values m)) ->
            primary_pool um ci m = []).
  { intros H. apply list_empty_iff. intros p Hp.
    apply primary_pool_In in Hp. destruct Hp as [Hin [Hi Hv]].
    apply Hv. now apply H. }
  split; [| split].
  - intros [p Hp].
    assert (Hne : primary_pool um ci m <> []).
    { intros E. apply list_empty_iff with (x := p) in E. apply E.
      now apply primary_pool_In. }
    pose proof (possible_matches_primary els um cur ci m Hne) as Epm.
    destruct (loop_body_records r els um cur ci m pos) as [me [j [Hin Hb]]].
    { now rewrite Epm. }
    rewrite Epm in Hin. apply primary_pool_In in Hin. simpl in Hin.
    exists me, j. tauto.
  - intros Hnone [p Hp].
    pose proof (possible_matches_fallback els um cur ci m (Hprim_empty Hnone))
      as Epm.
    destruct (loop_body_records r els um cur ci m pos) as [me [j [Hin Hb]]].
    { rewrite Epm. intros E. apply list_empty_iff with (x := p) in E.
      apply E. now apply fallback_pool_In. }
    rewrite Epm in Hin. apply fallback_pool_In in Hin. simpl in Hin.
    exists me, j. tauto.
  - intros Hnone Hnone'. apply loop_body_skips.
    rewrite (possible_matches_fallback els um cur ci m (Hprim_empty Hnone)).
    apply list_empty_iff. intros p Hp. apply fallback_pool_In in Hp.
    destruct Hp as [Hin [Hi [Hc Hv]]]. apply Hv. now apply Hnone'.
Qed.

(** X5. Once [test_matcher] has returned an assignment, a further call of
    [generate_matches] on a matcher holding it returns the same assignment,
    leaves the matcher as it is and draws no random number. *)
Theorem returned_assignment_is_stable (fuel : nat) (r : draws)
    (ss : list (list string)) (m : dict) (pos : nat) :
  test_matcher fuel r ss = Returned m ->
  generate_matches r (mkMatcher ss m) pos = (m, mkMatcher ss m, pos).
Proof.
  unfold test_matcher. intros Hret.
  apply retry_loop_returned in Hret; [| apply well_formed_empty].
  simpl in Hret. destruct Hret as [Hw Hver].
  apply verify_matches_true in Hver. simpl in Hver.
  destruct Hver as [_ [Hlen _]].
  apply (generate_matches_saturated r (mkMatcher ss m) pos). simpl.
  apply NoDup_length_incl.
  - apply Hw.
  - unfold values. rewrite length_map. lia.
  - now apply well_formed_values_incl.
Qed.

Lemma returned_assignment_is_stable_witness :
  test_matcher 2 (fun _ => 0) [["A"]; ["B"]; ["C"; "D"]]
  = Returned [("A", "D"); ("B", "C"); ("C", "B"); ("D", "A")]
  /\ generate_matches (fun _ => 0)
       (mkMatcher [["A"]; ["B"]; ["C"; "D"]]
          [("A", "D"); ("B", "C"); ("C", "B"); ("D", "A")]) 6
     = ([("A", "D"); ("B", "C"); ("C", "B"); ("D", "A")],
        mkMatcher [["A"]; ["B"]; ["C"; "D"]]
          [("A", "D"); ("B", "C"); ("C", "B"); ("D", "A")], 6).
Proof.
  split; [reflexivity |].
  exact (returned_assignment_is_stable 2 (fun _ => 0)
           [["A"]; ["B"]; ["C"; "D"]]
           [("A", "D"); ("B", "C"); ("C", "B"); ("D", "A")] 6 eq_refl).
Defined.

Section Counting.

Lemma map_fst_filter (P : string -> bool) (m : dict) :
  map fst (filter (fun kv => P (fst kv)) m) = filter P (map fst m).
Proof.
  induction m as [|[a b] t IH]; simpl; [reflexivity |].
  destruct (P a); simpl; now rewrite IH.
Qed.

(** Filtering a list keeps the images of its items distinct. *)
Lemma filter_keeps_distinct {K V : Type} (proj : K -> V) (keep : K -> bool)
    (items : list K) (Hnd : NoDup (map proj items)) :
  NoDup (map proj (filter keep items)).
Proof.
  induction items as [|x rest IH]; simpl in *; [constructor |].
  inversion Hnd as [|? ? Hfresh Hrest]; subst.
  destruct (keep x); simpl; [| now apply IH].
  constructor; [| now apply IH].
  intros Hin. apply Hfresh. apply in_map_iff in Hin.
  destruct Hin as [y [Hy Hf]]. apply filter_In in Hf.
  apply in_map_iff. exists y. tauto.
Qed.

Lemma NoDup_concat_nth (ss : list (list string)) (g : nat)
    (s : list string) :
  NoDup (List.concat ss) -> nth_error ss g = Some s -> NoDup s.
Proof.
  revert g. induction ss as [|u ss IH]; intros g Hnd Hg.
  - destruct g; discriminate.
  - simpl in Hnd. destruct g as [|g]; simpl in Hg.
    + inversion Hg; subst. now apply NoDup_app_remove_r in Hnd.
    + apply NoDup_app_remove_l in Hnd. now apply (IH g).
Qed.

(** An assignment that validates sends the members of a set to distinct
    elements outside it, so no set holds more than half of the universe. *)
Lemma validated_no_majority (ss : list (list string)) (m : dict) (g : nat) :
  well_formed ss m -> verify_matches (mkMatcher ss m) = Some true ->
  2 * List.length (members_of ss g) <= List.length (universe ss).
Proof.
  intros Hw Hver. apply verify_matches_true in Hver. simpl in Hver.
  destruct Hver as [_ [Hlen Hcross]].
  pose proof (well_formed_keys_incl _ _ Hw) as Hkin.
  pose proof (well_formed_values_incl _ _ Hw) as Hvin.
  destruct Hw as [Hk [Hv _]].
  set (P := fun e => match find_set ss e with
                     | Some i => i =? g
                     | None => false
                     end).
  set (K := filter (fun kv => P (fst kv)) m).
  assert (Huk : incl (universe ss) (keys m)).
  { apply NoDup_length_incl; try assumption.
    unfold keys. rewrite length_map. lia. }
  assert (H1 : List.length (members_of ss g) <= List.length K).
  { rewrite <- (length_map fst K). unfold K. rewrite map_fst_filter.
    apply NoDup_incl_length.
    - unfold members_of. apply NoDup_filter. apply NoDup_nodup.
    - intros e He. unfold members_of in He. apply filter_In in He.
      apply filter_In. split; [apply Huk; tauto | tauto]. }
  assert (H2 : List.length K
               <= List.length (filter (fun e => negb (P e)) (universe ss))).
  { rewrite <- (length_map snd K). apply NoDup_incl_length.
    - unfold K. apply filter_keeps_distinct. exact Hv.
    - intros v Hin. apply in_map_iff in Hin.
      destruct Hin as [[a b] [Hb Hin]]. simpl in Hb. subst b.
      unfold K in Hin. apply filter_In in Hin. destruct Hin as [Hin HP].
      simpl in HP. apply filter_In. split.
      + apply Hvin. apply in_map_iff. now exists (a, v).
      + destruct (Hcross a v Hin) as [i [j [Hi [Hj Hne]]]].
        unfold P in *. rewrite Hi in HP. rewrite Hj.
        apply Nat.eqb_eq in HP. subst i.
        apply negb_true_iff. apply Nat.eqb_neq. congruence. }
  pose proof (filter_length P (universe ss)) as Hsum.
  change (filter P (universe ss)) with (members_of ss g) in Hsum.
  lia.
Qed.

Lemma never_validates_never_returns (r : draws) (ss : list (list string)) :
  (forall m, well_formed ss m ->
             verify_matches (mkMatcher ss m) <> Some true) ->
  forall fuel, test_matcher fuel r ss = OutOfFuel.
Proof.
  intros Hnever fuel. unfold test_matcher.
  destruct (retry_loop fuel r (Matcher_init ss) 0) as [m| |] eqn:E.
  - apply retry_loop_returned in E; [| apply well_formed_empty].
    simpl in E. destruct E as [Hw Hv]. now apply Hnever in Hw.
  - exfalso. revert E. apply retry_loop_never_raises. apply well_formed_empty.
  - reflexivity.
Qed.

Lemma members_of_group (ss : list (list string)) (g : nat)
    (s : list string) :
  NoDup (List.concat ss) -> nth_error ss g = Some s ->
  List.length s <= List.length (members_of ss g).
Proof.
  intros Hnd Hg. apply NoDup_incl_length.
  - now apply (NoDup_concat_nth ss g).
  - intros e He.
    assert (Hel : In (e, g) (all_elements ss)).
    { apply In_all_elements. now exists s. }
    unfold members_of. apply filter_In. split.
    + apply In_universe. now exists g.
    + destruct (find_set_of_element _ _ _ Hel) as [i Hi]. rewrite Hi.
      apply Nat.eqb_eq. symmetry.
      apply (disjoint_find_set ss e i g); try assumption.
      now apply NoDup_concat_disjoint.
Qed.

End Counting.

(** X6. When no element is repeated and one group holds more than half of
    all the elements, [test_matcher] never returns: whatever the draws, no
    number of attempts suffices. *)
Theorem majority_group_never_returns (r : draws) (ss : list (list string))
    (g : nat) (s : list string) :
  NoDup (List.concat ss) ->
  nth_error ss g = Some s ->
  List.length (List.concat ss) < 2 * List.length s ->
  forall fuel, test_matcher fuel r ss = OutOfFuel.
Proof.
  intros Hnd Hg Hmaj. apply never_validates_never_returns.
  intros m Hw Hv.
  pose proof (validated_no_majority ss m g Hw Hv) as Hhalf.
  pose proof (members_of_group ss g s Hnd Hg) as Hs.
  unfold universe in Hhalf. rewrite (nodup_fixed_point string_dec) in Hhalf.
  - lia.
  - exact Hnd.
Qed.

Lemma majority_group_never_returns_witness :
  NoDup (List.concat [["A"; "B"]; ["C"]])
  /\ test_matcher 9 (fun n => n) [["A"; "B"]; ["C"]] = OutOfFuel.
Proof.
  assert (Hnd : NoDup (List.concat [["A"; "B"]; ["C"]])).
  { simpl. repeat constructor; simpl; intuition discriminate. }
  split; [exact Hnd |].
  apply (majority_group_never_returns (fun n => n) [["A"; "B"]; ["C"]]
           0 ["A"; "B"] Hnd eq_refl).
  simpl. lia.
Defined.

Section FirstAttempt.

Variable r : draws.

Lemma dict_set_fresh (m : dict) (k v : string) :
  ~ In k (keys m) -> dict_set m k v = m ++ [(k, v)].
Proof.
  induction m as [|[a b] t IH]; simpl; intros Hk; [reflexivity |].
  destruct (String.eqb_spec k a) as [->|Hne]; [tauto |].
  rewrite IH; [reflexivity | tauto].
Qed.

Lemma map_fst_all_elements (ss : list (list string)) :
  map fst (all_elements ss) = List.concat ss.
Proof.
  unfold all_elements, enumerate. generalize 0.
  induction ss as [|s t IH]; intros i; simpl; [reflexivity |].
  rewrite map_app, IH, map_map. simpl. now rewrite map_id.
Qed.

(** While no pending element has an entry yet, a call only appends: the
    targets already given stay, and a pending element that ends without an
    entry found every other-set element taken. *)
Lemma gen_loop_first_call (els um : list (string * nat)) (m : dict)
    (pos : nat) :
  NoDup (map fst um) ->
  (forall p, In p um -> ~ In (fst p) (keys m)) ->
  incl (values m) (values (fst (gen_loop r els um (m, pos))))
  /\ forall e i, In (e, i) um ->
       ~ In e (keys (fst (gen_loop r els um (m, pos)))) ->
       forall t j, In (t, j) els -> j <> i -> t <> e ->
         In t (values (fst (gen_loop r els um (m, pos)))).
Proof.
  revert m pos. induction um as [|[cur ci] rest IH]; intros m pos Hnd Hfresh.
  - split; [apply incl_refl | intros e i []].
  - cbn [gen_loop]. simpl in Hnd.
    inversion Hnd as [|? ? Hcur Hnd']; subst.
    assert (Hcases : possible_matches els rest cur ci m = []
                     \/ possible_matches els rest cur ci m <> []).
    { destruct (possible_matches els rest cur ci m);
        [now left | right; discriminate]. }
    destruct Hcases as [E|E].
    + rewrite (loop_body_skips r _ _ _ _ _ pos E).
      destruct (IH m pos Hnd') as [Hmono Hdrop].
      { intros p Hp. apply Hfresh. now right. }
      split; [exact Hmono |].
      intros e i [Hhead|Hin] Hnokey t j Ht Hj Hte.
      * inversion Hhead; subst. apply Hmono.
        destruct (in_dec string_dec t (values m)) as [Hv|Hv];
          [exact Hv | exfalso].
        assert (Hfb : In (t, j) (fallback_pool els e i m)).
        { apply fallback_pool_In. simpl. tauto. }
        unfold possible_matches in E.
        destruct (primary_pool rest i m); [| discriminate].
        rewrite E in Hfb. exact Hfb.
      * exact (Hdrop e i Hin Hnokey t j Ht Hj Hte).
    + destruct (loop_body_records r els rest cur ci m pos E)
        as [me [j0 [_ Hb]]].
      rewrite Hb.
      assert (Hck : ~ In cur (keys m)).
      { apply (Hfresh (cur, ci)). now left. }
      rewrite (dict_set_fresh m cur me Hck).
      destruct (IH (m ++ [(cur, me)]) (S pos) Hnd') as [Hmono Hdrop].
      { intros p Hp Hk. unfold keys in Hk. rewrite map_app in Hk.
        apply in_app_or in Hk. destruct Hk as [Hk|[Hk|[]]].
        - apply (Hfresh p); [now right | exact Hk].
        - simpl in Hk. apply Hcur. rewrite Hk. now apply in_map. }
      split.
      * intros v Hv. apply Hmono. unfold values. rewrite map_app.
        apply in_or_app. now left.
      * intros e i [Hhead|Hin] Hnokey t j Ht Hj Hte.
        -- inversion Hhead; subst. exfalso. apply Hnokey.
           apply (proj1 (gen_loop_keeps_keys r els rest (m ++ [(e, me)])
                           (S pos))).
           unfold keys. rewrite map_app. apply in_or_app. right. now left.
        -- exact (Hdrop e i Hin Hnokey t j Ht Hj Hte).
Qed.

Lemma generate_matches_fst (self : Matcher) (pos : nat) :
  fst (fst (generate_matches r self pos))
  = fst (gen_loop r (all_elements (sets self)) (all_elements (sets self))
           (matches self, pos)).
Proof.
  unfold generate_matches. destruct (gen_loop _ _ _ _). reflexivity.
Qed.

End FirstAttempt.

Lemma first_call_drop (r : draws) (ss : list (list string))
    (e t : string) (i j : nat) :
  NoDup (List.concat ss) ->
  In (e, i) (all_elements ss) ->
  ~ In e (keys (fst (gen_loop r (all_elements ss) (all_elements ss)
                       ([], 0)))) ->
  In (t, j) (all_elements ss) -> j <> i ->
  In t (values (fst (gen_loop r (all_elements ss) (all_elements ss)
                       ([], 0)))).
Proof.
  intros Hnd He Hnokey Ht Hj.
  assert (Hall : NoDup (map fst (all_elements ss)))
    by now rewrite map_fst_all_elements.
  destruct (gen_loop_first_call r (all_elements ss) (all_elements ss) [] 0
              Hall) as [_ Hdrop].
  { intros p _ []. }
  apply (Hdrop e i He Hnokey t j Ht Hj).
  intros ->. apply Hj.
  apply In_all_elements in He, Ht.
  destruct He as [s [Hs Hes]], Ht as [u [Hu Heu]].
  apply (NoDup_concat_disjoint ss Hnd e j i u s); assumption.
Qed.

(** X7. In the first attempt on an input without repeated elements, an
    element is left without an entry only if every element of every other
    group is a target in the assignment that attempt produces. *)
Theorem first_attempt_drop (r : draws) (ss : list (list string))
    (e t : string) (i j : nat) :
  NoDup (List.concat ss) ->
  In (e, i) (all_elements ss) ->
  ~ In e (keys (fst (fst (generate_matches r (Matcher_init ss) 0)))) ->
  In (t, j) (all_elements ss) -> j <> i ->
  In t (values (fst (fst (generate_matches r (Matcher_init ss) 0)))).
Proof.
  intros Hnd He Hnokey Ht Hj.
  rewrite generate_matches_fst in *. simpl sets in *. simpl matches in *.
  now apply (first_call_drop r ss e t i j).
Qed.

Lemma first_attempt_drop_witness :
  NoDup (List.concat [["A"]; ["B"]; ["C"; "D"]])
  /\ ~ In "D" (keys (fst (fst (generate_matches (fun _ => 0)
                               (Matcher_init [["A"]; ["B"]; ["C"; "D"]]) 0))))
  /\ In "A" (values (fst (fst (generate_matches (fun _ => 0)
                                (Matcher_init [["A"]; ["B"]; ["C"; "D"]])
                                0)))).
Proof.
  assert (Hnd : NoDup (List.concat [["A"]; ["B"]; ["C"; "D"]])).
  { simpl. repeat constructor; simpl; intuition discriminate. }
  assert (Hno : ~ In "D" (keys (fst (fst (generate_matches (fun _ => 0)
                               (Matcher_init [["A"]; ["B"]; ["C"; "D"]])
                               0))))).
  { simpl. intuition discriminate. }
  split; [exact Hnd |]. split; [exact Hno |].
  apply (first_attempt_drop (fun _ => 0) [["A"]; ["B"]; ["C"; "D"]]
           "D" "A" 2 0 Hnd).
  - simpl. tauto.
  - exact Hno.
  - simpl. tauto.
  - discriminate.
Defined.

Section TwoGroups.

Variable r : draws.

(** With only the sets [i] and [o] inhabited: if every element of [o] is a
    target while [e] of set [i] has no entry, then set [i] is the larger,
    for the targets in [o] come from distinct keys of [i] other than
    [e]. *)
Lemma dropped_needs_larger_group (ss : list (list string)) (m : dict)
    (i o : nat) (gi go : list string) (e : string) :
  groups_disjoint ss -> well_formed ss m ->
  nth_error ss i = Some gi -> nth_error ss o = Some go ->
  (forall x a, In (x, a) (all_elements ss) -> a = i \/ a = o) ->
  NoDup go -> In e gi -> ~ In e (keys m) ->
  (forall t, In t go -> In t (values m)) ->
  List.length go < List.length gi.
Proof.
  intros Hd [Hk [Hv Hp]] Hi Ho Htwo Hndo He Hnokey Hall.
  set (K := filter (fun kv => mem (snd kv) go) m).
  assert (H1 : List.length go <= List.length K).
  { rewrite <- (length_map snd K). apply NoDup_incl_length; [exact Hndo |].
    intros t Ht. pose proof (Hall t Ht) as Hin.
    apply in_map_iff in Hin. destruct Hin as [[a b] [Hb Hin]].
    simpl in Hb. subst b. apply in_map_iff. exists (a, t). split; [reflexivity |].
    apply filter_In. split; [exact Hin | now apply mem_In]. }
  assert (H2 : S (List.length K) <= List.length gi).
  { rewrite <- (length_map fst K).
    change (S (List.length (map fst K)))
      with (List.length (e :: map fst K)).
    apply NoDup_incl_length.
    - constructor.
      + intros Hin. apply Hnokey. apply in_map_iff in Hin.
        destruct Hin as [x [Hx Hf]]. apply filter_In in Hf.
        apply in_map_iff. exists x. tauto.
      + unfold K. apply filter_keeps_distinct. exact Hk.
    - intros k [<-|Hin]; [exact He |].
      apply in_map_iff in Hin. destruct Hin as [[a b] [Ha Hf]].
      simpl in Ha. subst a. unfold K in Hf. apply filter_In in Hf.
      destruct Hf as [Hin Hmem]. simpl in Hmem. apply mem_In in Hmem.
      destruct (Hp k b Hin) as [a [c [Hka [Hbc Hne]]]].
      assert (c = o).
      { apply In_all_elements in Hbc. destruct Hbc as [u [Hu Hbu]].
        apply (Hd b c o u go); assumption. }
      subst c. destruct (Htwo k a Hka) as [-> | ->]; [| congruence].
      apply In_all_elements in Hka. destruct Hka as [u [Hu Hku]].
      congruence. }
  lia.
Qed.

End TwoGroups.

(** X8. With exactly two groups of the same size and no repeated element
    (the groups not empty), [test_matcher] returns the assignment of its
    first attempt, whatever the draws. *)
Theorem equal_pair_returns_at_once (r : draws) (g0 g1 : list string)
    (fuel : nat) :
  NoDup (g0 ++ g1) -> List.length g0 = List.length g1 -> g0 <> [] ->
  test_matcher (S fuel) r [g0; g1]
  = Returned (fst (fst (generate_matches r (Matcher_init [g0; g1]) 0))).
Proof.
  intros Hnd Hlen Hne.
  assert (Hc : NoDup (List.concat [g0; g1])).
  { simpl. now rewrite app_nil_r. }
  pose proof (NoDup_concat_disjoint _ Hc) as Hd.
  pose proof (generate_matches_well_formed r (Matcher_init [g0; g1]) 0
                (well_formed_empty _)) as Hg.
  unfold test_matcher. cbn [retry_loop].
  destruct (generate_matches r (Matcher_init [g0; g1]) 0)
    as [[m matcher'] pos'] eqn:E.
  destruct Hg as [Hm [Hs Hw]]. simpl in Hs, Hw.
  assert (Em : m = fst (fst (generate_matches r (Matcher_init [g0; g1]) 0)))
    by now rewrite E.
  assert (Htwo : forall x a, In (x, a) (all_elements [g0; g1]) ->
                             a = 0 \/ a = 1).
  { intros x a Hin. apply In_all_elements in Hin.
    destruct Hin as [s [Hn _]].
    destruct a as [|[|a]]; [now left | now right |].
    simpl in Hn. destruct a; discriminate. }
  assert (Hkeys : forall e a, In (e, a) (all_elements [g0; g1]) ->
                              In e (keys m)).
  { intros e a Hin.
    destruct (in_dec string_dec e (keys m)) as [Hy|Hno]; [exact Hy | exfalso].
    assert (Hdrop : forall t j, In (t, j) (all_elements [g0; g1]) ->
                                j <> a -> In t (values m)).
    { intros t j Ht Hj. rewrite Em. rewrite Em in Hno.
      rewrite generate_matches_fst in *. simpl sets in *.
      simpl matches in *.
      now apply (first_call_drop r [g0; g1] e t a j). }
    rewrite <- Hm in Hw.
    destruct (Htwo e a Hin) as [-> | ->].
    - assert (Hlt : List.length g1 < List.length g0).
      { apply (dropped_needs_larger_group [g0; g1] m 0 1 g0 g1 e Hd Hw
                 eq_refl eq_refl).
        - exact Htwo.
        - now apply NoDup_app_remove_l in Hnd.
        - apply In_all_elements in Hin. destruct Hin as [s [Hs0 Hes]].
          simpl in Hs0. now inversion Hs0; subst.
        - exact Hno.
        - intros t Ht. apply (Hdrop t 1); [| discriminate].
          apply In_all_elements. now exists g1. }
      lia.
    - assert (Hlt : List.length g0 < List.length g1).
      { apply (dropped_needs_larger_group [g0; g1] m 1 0 g1 g0 e Hd Hw
                 eq_refl eq_refl).
        - intros x b Hb. destruct (Htwo x b Hb); [now right | now left].
        - now apply NoDup_app_remove_r in Hnd.
        - apply In_all_elements in Hin. destruct Hin as [s [Hs0 Hes]].
          simpl in Hs0. now inversion Hs0; subst.
        - exact Hno.
        - intros t Ht. apply (Hdrop t 0); [| discriminate].
          apply In_all_elements. now exists g0. }
      lia. }
  assert (Hver : verify_matches matcher' = Some true).
  { apply verify_matches_true. rewrite Hs, <- Hm.
    rewrite <- Hm in Hw.
    assert (Hlen' : List.length m = List.length (universe [g0; g1])).
    { pose proof (well_formed_keys_incl _ _ Hw) as Hki.
      destruct Hw as [Hk _].
      apply Nat.le_antisymm.
      - rewrite <- (length_map fst m). now apply NoDup_incl_length.
      - rewrite <- (length_map fst m). apply NoDup_incl_length.
        + apply NoDup_nodup.
        + intros e He. apply In_universe in He. destruct He as [a Ha].
          now apply (Hkeys e a). }
    split; [| split].
    - intros ->. destruct g0 as [|x g0]; [congruence |].
      apply (Hkeys x 0). apply In_all_elements. exists (x :: g0).
      split; [reflexivity | now left].
    - exact Hlen'.
    - now apply well_formed_cross. }
  rewrite Hver. reflexivity.
Qed.

Lemma equal_pair_returns_at_once_witness :
  NoDup (["A"; "B"] ++ ["C"; "D"])
  /\ test_matcher 1 (fun n => n) [["A"; "B"]; ["C"; "D"]]
     = Returned [("A", "C"); ("B", "D"); ("C", "A"); ("D", "B")].
Proof.
  assert (Hnd : NoDup (["A"; "B"] ++ ["C"; "D"])).
  { simpl. repeat constructor; simpl; intuition discriminate. }
  split; [exact Hnd |].
  apply (equal_pair_returns_at_once (fun n => n) ["A"; "B"] ["C"; "D"] 0 Hnd).
  - reflexivity.
  - discriminate.
Defined.

(* ================================================================== *)
(** ** Further properties of the emailer *)

Section EmailDictFacts.

Lemma dict_get_set (d : dict) (k v k' : string) :
  dict_get (dict_set d k v) k'
  = if String.eqb k' k then Some v else dict_get d k'.
Proof.
  induction d as [|[a b] t IH]; simpl.
  - reflexivity.
  - destruct (String.eqb_spec k a) as [->|Hka]; simpl.
    + destruct (String.eqb k' a); reflexivity.
    + rewrite IH. destruct (String.eqb_spec k' a) as [->|Hk'a].
      * destruct (String.eqb_spec a k); [congruence | reflexivity].
      * reflexivity.
Qed.

Lemma dict_get_app (d d' : dict) (k : string) :
  dict_get (d ++ d') k
  = match dict_get d k with
    | Some v => Some v
    | None => dict_get d' k
    end.
Proof.
  induction d as [|[a b] t IH]; simpl; [reflexivity |].
  destruct (String.eqb k a); [reflexivity | exact IH].
Qed.

Lemma dict_get_In (d : dict) (k : string) :
  In k (keys d) <-> exists v, dict_get d k = Some v.
Proof.
  induction d as [|[a b] t IH]; simpl.
  - split; [intros [] | intros [v Hv]; discriminate].
  - destruct (String.eqb_spec k a) as [->|Hne].
    + split; [intros _; now exists b | intros _; now left].
    + rewrite <- IH. split; [intros [H|H]; [congruence | exact H] | tauto].
Qed.

Lemma fold_dict_set_get (items : dict) (acc : dict) (k : string) :
  dict_get (fold_left (fun a kv => dict_set a (fst kv) (snd kv)) items acc) k
  = match dict_get (rev items) k with
    | Some v => Some v
    | None => dict_get acc k
    end.
Proof.
  revert acc. induction items as [|[a b] t IH]; intros acc; simpl.
  - reflexivity.
  - rewrite IH, dict_get_app, dict_get_set. simpl.
    destruct (dict_get (rev t) k); [reflexivity |].
    destruct (String.eqb k a); reflexivity.
Qed.

Lemma fold_dict_set_NoDup (items : dict) (acc : dict) :
  NoDup (keys acc) ->
  NoDup (keys (fold_left (fun a kv => dict_set a (fst kv) (snd kv))
                 items acc)).
Proof.
  revert acc. induction items as [|[a b] t IH]; intros acc H; simpl.
  - exact H.
  - apply IH. now apply dict_set_NoDup_keys.
Qed.

Lemma concat_singletons {A : Type} (l : list A) :
  List.concat (map (fun x => [x]) l) = l.
Proof.
  induction l as [|a t IH]; simpl; [reflexivity | now rewrite IH].
Qed.

End EmailDictFacts.

Lemma email_dict_NoDup (email_mapping : list dict) :
  NoDup (keys (make_email_dict email_mapping)).
Proof.
  unfold make_email_dict. apply fold_dict_set_NoDup. constructor.
Qed.

Lemma email_dict_get (email_mapping : list dict) (k : string) :
  dict_get (make_email_dict email_mapping) k
  = dict_get (rev (List.concat email_mapping)) k.
Proof.
  unfold make_email_dict. rewrite fold_dict_set_get. simpl.
  destruct (dict_get (rev (List.concat email_mapping)) k); reflexivity.
Qed.

(** X9. The dictionary [send_mails] builds from the mapping has distinct
    keys, and a name is looked up to the last address given for it
    anywhere in the mapping (to nothing when no dictionary of the mapping
    names it). *)
Theorem email_dict_last_wins (email_mapping : list dict) (k : string) :
  NoDup (keys (make_email_dict email_mapping))
  /\ dict_get (make_email_dict email_mapping) k
     = dict_get (rev (List.concat email_mapping)) k.
Proof.
  split; [apply email_dict_NoDup | apply email_dict_get].
Qed.

(** X10. Every key of an assignment that [test_matcher] returns for the
    groups read from a mapping (the names of each dictionary, as the two
    scripts use the same file) has an address in the dictionary
    [send_mails] builds from that mapping. *)
Theorem returned_senders_have_addresses (fuel : nat) (r : draws)
    (email_mapping : list dict) (m : dict) (k v : string) :
  test_matcher fuel r (map keys email_mapping) = Returned m ->
  In (k, v) m ->
  exists addr, dict_get (make_email_dict email_mapping) k = Some addr.
Proof.
  unfold test_matcher. intros Hret Hin.
  apply retry_loop_returned in Hret; [| apply well_formed_empty].
  simpl in Hret. destruct Hret as [Hw _].
  pose proof (well_formed_keys_incl _ _ Hw k) as Hk.
  assert (Hkin : In k (keys m)).
  { apply in_map_iff. now exists (k, v). }
  apply Hk in Hkin. unfold universe in Hkin. rewrite nodup_In in Hkin.
  rewrite email_dict_get.
  apply dict_get_In. unfold keys in *. rewrite map_rev, <- in_rev.
  now rewrite concat_map.
Qed.

Lemma returned_senders_have_addresses_witness :
  test_matcher 1 (fun _ => 0)
    (map keys [[("A", "a@example.org")]; [("B", "b@example.org")]])
  = Returned [("A", "B"); ("B", "A")]
  /\ exists addr,
       dict_get
         (make_email_dict
            [[("A", "a@example.org")]; [("B", "b@example.org")]]) "A"
       = Some addr.
Proof.
  split; [reflexivity |].
  apply (returned_senders_have_addresses 1 (fun _ => 0)
           [[("A", "a@example.org")]; [("B", "b@example.org")]]
           [("A", "B"); ("B", "A")] "A" "B" eq_refl).
  simpl. tauto.
Defined.

Section EmailerFacts.

Variable T : Type.
Variable jinja_render : T -> string -> string -> result string.
Variable smtp : Type.
Variable SMTP : string -> nat -> result smtp.
Variable starttls : smtp -> smtp * option exn.
Variable login : string -> string -> smtp -> smtp * option exn.
Variable send_message : MIMEMultipart -> smtp -> smtp * option exn.
Variable quit : smtp -> option exn.
Variable str : exn -> string.

Lemma created_message (self : SecretSantaEmailer T)
    (to_email k v : string) (message : MIMEMultipart) :
  _create_email_message T jinja_render self to_email k v = Ok message ->
  map fst (headers message) = ["From"; "To"; "Subject"]
  /\ In ("From", username (config T self)) (headers message)
  /\ In ("To", to_email) (headers message)
  /\ exists body,
       render T jinja_render (emailer_template T self) k v = Ok body
       /\ payload message = [(body, "plain")].
Proof.
  unfold _create_email_message.
  destruct (render T jinja_render (emailer_template T self) k v)
    as [body|e]; [| discriminate].
  intros H. injection H as <-. simpl.
  repeat split; try tauto. now exists body.
Qed.

(** One iteration adds one log entry about its sender; it hands at most one
    message to the server, and counts it as sent when the server took
    it. *)
Lemma deliver_cases (self : SecretSantaEmailer T) (d : dict) (server : smtp)
    (sent : list MIMEMultipart) (log : list log_entry) (k v : string) :
  (exists server' entry,
     deliver T jinja_render smtp send_message str self d
       (server, sent, log) (k, v)
     = (server', sent, log ++ [entry])
     /\ (entry = (ERROR, ("No email found for " ++ k)%string)
         \/ exists e, entry = (ERROR, ("Failed to send email to " ++ k
                                       ++ ": " ++ str e)%string)))
  \/ (exists server' addr message,
        dict_get d k = Some addr /\ addr <> ""
        /\ _create_email_message T jinja_render self addr k v = Ok message
        /\ send_message message server = (server', None)
        /\ deliver T jinja_render smtp send_message str self d
             (server, sent, log) (k, v)
           = (server', sent ++ [message],
              log ++ [(INFO, ("Successfully sent assignment email to "
                              ++ k)%string)])).
Proof.
  unfold deliver.
  destruct (dict_get d k) as [addr|] eqn:Eg.
  - destruct (String.eqb_spec addr "") as [Ea|Ea].
    + left. exists server. eexists. split; [reflexivity | now left].
    + destruct (_create_email_message T jinja_render self addr k v)
        as [message|e] eqn:Em.
      * destruct (send_message message server) as [server' [e|]] eqn:Es.
        -- left. exists server'. eexists. split; [reflexivity |].
           right. now exists e.
        -- right. exists server', addr, message. repeat split; assumption.
      * left. exists server. eexists. split; [reflexivity |].
        right. now exists e.
  - left. exists server. eexists. split; [reflexivity | now left].
Qed.

(** The loop over the assignment: one log entry per entry, in order, and
    the messages sent are a selection of the entries, each to the address
    of its sender. *)
Lemma deliver_all (self : SecretSantaEmailer T) (d : dict)
    (matches : dict) (server : smtp) (sent : list MIMEMultipart)
    (log : list log_entry) :
  exists server' new entries,
    fold_left (deliver T jinja_render smtp send_message str self d) matches
      (server, sent, log)
    = (server', sent ++ new, log ++ entries)
    /\ Forall2
         (fun entry item =>
            entry = (ERROR, ("No email found for " ++ fst item)%string)
            \/ (exists e,
                  entry = (ERROR, ("Failed to send email to " ++ fst item
                                   ++ ": " ++ str e)%string))
            \/ entry = (INFO, ("Successfully sent assignment email to "
                               ++ fst item)%string))
         entries matches
    /\ List.length new <= List.length matches
    /\ Forall
         (fun message =>
            exists k v addr,
              In (k, v) matches /\ dict_get d k = Some addr /\ addr <> ""
              /\ _create_email_message T jinja_render self addr k v
                 = Ok message)
         new.
Proof.
  revert server sent log.
  induction matches as [|[k v] rest IH]; intros server sent log.
  - exists server, [], []. simpl. rewrite !app_nil_r.
    repeat split; constructor.
  - cbn [fold_left].
    destruct (deliver_cases self d server sent log k v)
      as [[server1 [entry [-> Hentry]]]
         | [server1 [addr [message [Hg [Ha [Hc [Hs ->]]]]]]]].
    + destruct (IH server1 sent (log ++ [entry]))
        as [server' [new [entries [-> [Hf [Hl Hall]]]]]].
      exists server', new, (entry :: entries).
      rewrite <- app_assoc. simpl. repeat split.
      * constructor; [simpl; tauto | exact Hf].
      * lia.
      * eapply Forall_impl; [| exact Hall].
        intros message [k' [v' [addr' [Hin Hrest]]]].
        exists k', v', addr'. split; [now right | exact Hrest].
    + destruct (IH server1 (sent ++ [message])
                  (log ++ [(INFO, ("Successfully sent assignment email to "
                                   ++ k)%string)]))
        as [server' [new [entries [-> [Hf [Hl Hall]]]]]].
      exists server', (message :: new),
        ((INFO, ("Successfully sent assignment email to " ++ k)%string)
         :: entries).
      rewrite <- !app_assoc. simpl. repeat split.
      * constructor; [simpl; tauto | exact Hf].
      * lia.
      * constructor.
        -- exists k, v, addr. repeat split; try assumption. now left.
        -- eapply Forall_impl; [| exact Hall].
           intros message' [k' [v' [addr' [Hin Hrest]]]].
           exists k', v', addr'. split; [now right | exact Hrest].
Qed.

(** What leaves the [with] statement: either the session could not be
    opened, and nothing was sent or logged; or it was opened, the loop ran
    over the whole assignment, and only leaving the block can raise. *)
Lemma session_cases (self : SecretSantaEmailer T) (matches d : dict)
    (log : list log_entry) :
  (((exists e, SMTP (smtp_server (config T self)) (port (config T self))
               = Raise e)
    \/ exists server,
         SMTP (smtp_server (config T self)) (port (config T self))
         = Ok server
         /\ (snd (starttls server) <> None
             \/ snd (login (username (config T self))
                       (password (config T self)) (fst (starttls server)))
                <> None))
   /\ exists e,
        session T jinja_render smtp SMTP starttls login send_message quit
          str self matches d log = (Some e, [], log))
  \/ (exists server s1 s2,
        SMTP (smtp_server (config T self)) (port (config T self)) = Ok server
        /\ starttls server = (s1, None)
        /\ login (username (config T self)) (password (config T self)) s1
           = (s2, None)
        /\ session T jinja_render smtp SMTP starttls login send_message quit
             str self matches d log
           = (quit (fst (fst (fold_left
                                (deliver T jinja_render smtp send_message
                                   str self d) matches (s2, [], log)))),
              snd (fst (fold_left
                          (deliver T jinja_render smtp send_message str
                             self d) matches (s2, [], log))),
              snd (fold_left
                     (deliver T jinja_render smtp send_message str self d)
                     matches (s2, [], log)))).
Proof.
  unfold session, session_body.
  destruct (SMTP (smtp_server (config T self)) (port (config T self)))
    as [server|e0].
  - destruct (starttls server) as [s1 [e1|]] eqn:E1.
    + left. split.
      * right. exists server. split; [reflexivity |]. left.
        rewrite E1. discriminate.
      * destruct (quit s1) as [e'|]; eexists; reflexivity.
    + destruct (login (username (config T self)) (password (config T self))
                  s1) as [s2 [e2|]] eqn:E2.
      * left. split.
        -- right. exists server. split; [reflexivity |]. right.
           rewrite E1. simpl. rewrite E2. discriminate.
        -- destruct (quit s2) as [e'|]; eexists; reflexivity.
      * right. exists server, s1, s2.
        split; [reflexivity |]. split; [exact E1 |]. split; [exact E2 |].
        destruct (fold_left
                    (deliver T jinja_render smtp send_message str self d)
                    matches (s2, [], log)) as [[sf sent] log'].
        simpl. destruct (quit sf); reflexivity.
  - left. split; [left; now exists e0 | now exists e0].
Qed.

(** X11. When the connection cannot be opened, or [starttls] or [login]
    raises, [send_mails] raises, sends no message and adds exactly one
    entry to the log, the error naming the exception it raises. *)
Theorem send_mails_connection_failure (self : SecretSantaEmailer T)
    (matches : dict) (email_mapping : list dict) (log : list log_entry) :
  ((exists e, SMTP (smtp_server (config T self)) (port (config T self))
              = Raise e)
   \/ exists server,
        SMTP (smtp_server (config T self)) (port (config T self)) = Ok server
        /\ (snd (starttls server) <> None
            \/ snd (login (username (config T self))
                      (password (config T self)) (fst (starttls server)))
               <> None)) ->
  exists e,
    send_mails T jinja_render smtp SMTP starttls login send_message quit str
      self matches email_mapping log
    = (Some e, [],
       log ++ [(ERROR, ("Failed to connect to email server: "
                        ++ str e)%string)]).
Proof.
  intros Hfail. unfold send_mails.
  destruct (session_cases self matches (make_email_dict email_mapping) log)
    as [[_ [e ->]] | [server [s1 [s2 [H0 [H1 [H2 _]]]]]]].
  - now exists e.
  - exfalso. destruct Hfail as [[e He] | [server' [Hs [Ht | Hl]]]].
    + congruence.
    + rewrite H0 in Hs. injection Hs as <-. rewrite H1 in Ht. now apply Ht.
    + rewrite H0 in Hs. injection Hs as <-. rewrite H1 in Hl. simpl in Hl.
      rewrite H2 in Hl. now apply Hl.
Qed.

(** X12. Once the session is open ([SMTP], [starttls] and [login] went
    through), [send_mails] adds to the log one entry per entry of the
    assignment, in order, each naming its sender: no address, failure, or
    success, whatever happened to the entries before it. After these comes
    one more error entry exactly when [send_mails] raises. *)
Theorem send_mails_logs_every_entry (self : SecretSantaEmailer T)
    (matches : dict) (email_mapping : list dict) (log : list log_entry)
    (server s1 s2 : smtp) :
  SMTP (smtp_server (config T self)) (port (config T self)) = Ok server ->
  starttls server = (s1, None) ->
  login (username (config T self)) (password (config T self)) s1
  = (s2, None) ->
  exists entries,
    Forall2
      (fun entry item =>
         entry = (ERROR, ("No email found for " ++ fst item)%string)
         \/ (exists e,
               entry = (ERROR, ("Failed to send email to " ++ fst item
                                ++ ": " ++ str e)%string))
         \/ entry = (INFO, ("Successfully sent assignment email to "
                            ++ fst item)%string))
      entries matches
    /\ snd (send_mails T jinja_render smtp SMTP starttls login send_message
              quit str self matches email_mapping log)
       = log ++ entries
         ++ match fst (fst (send_mails T jinja_render smtp SMTP starttls
                              login send_message quit str self matches
                              email_mapping log)) with
            | Some e => [(ERROR, ("Failed to connect to email server: "
                                  ++ str e)%string)]
            | None => []
            end.
Proof.
  intros H0 H1 H2. unfold send_mails.
  destruct (session_cases self matches (make_email_dict email_mapping) log)
    as [[Hfail _] | [server' [s1' [s2' [H0' [H1' [H2' ->]]]]]]].
  - exfalso. destruct Hfail as [[e He] | [server' [Hs [Ht | Hl]]]].
    + rewrite H0 in He. discriminate.
    + rewrite H0 in Hs. injection Hs as <-. rewrite H1 in Ht. now apply Ht.
    + rewrite H0 in Hs. injection Hs as <-. rewrite H1 in Hl. simpl in Hl.
      rewrite H2 in Hl. now apply Hl.
  - assert (s2' = s2) by congruence. subst s2'.
    destruct (deliver_all self (make_email_dict email_mapping) matches s2
                [] log) as [sf [new [entries [-> [Hf _]]]]].
    exists entries. split; [exact Hf |]. simpl.
    destruct (quit sf) as [e|]; simpl.
    + now rewrite <- app_assoc.
    + now rewrite app_nil_r.
Qed.

(** X13. Whatever the servers do, [send_mails] hands over for an entry at
    most one message, so never more messages than the assignment has
    entries; and every message the server accepted belongs to an entry whose
    sender has a non-empty address in the dictionary: it goes to that
    address, comes from the configured user name, and carries as its one
    plain-text part the template rendered for that sender and recipient. *)
Theorem sent_messages_are_addressed (self : SecretSantaEmailer T)
    (matches : dict) (email_mapping : list dict) (log : list log_entry) :
  List.length
    (snd (fst (send_mails T jinja_render smtp SMTP starttls login
                 send_message quit str self matches email_mapping log)))
  <= List.length matches
  /\ Forall
       (fun message =>
          exists k v addr body,
            In (k, v) matches
            /\ dict_get (make_email_dict email_mapping) k = Some addr
            /\ addr <> ""
            /\ map fst (headers message) = ["From"; "To"; "Subject"]
            /\ In ("From", username (config T self)) (headers message)
            /\ In ("To", addr) (headers message)
            /\ render T jinja_render (emailer_template T self) k v = Ok body
            /\ payload message = [(body, "plain")])
       (snd (fst (send_mails T jinja_render smtp SMTP starttls login
                    send_message quit str self matches email_mapping log))).
Proof.
  unfold send_mails.
  destruct (session_cases self matches (make_email_dict email_mapping) log)
    as [[_ [e ->]] | [server [s1 [s2 [_ [_ [_ ->]]]]]]].
  - simpl. split; [lia | constructor].
  - destruct (deliver_all self (make_email_dict email_mapping) matches s2
                [] log) as [sf [new [entries [-> [_ [Hl Hall]]]]]].
    assert (Hnew : Forall
              (fun message =>
                 exists k v addr body,
                   In (k, v) matches
                   /\ dict_get (make_email_dict email_mapping) k = Some addr
                   /\ addr <> ""
                   /\ map fst (headers message) = ["From"; "To"; "Subject"]
                   /\ In ("From", username (config T self)) (headers message)
                   /\ In ("To", addr) (headers message)
                   /\ render T jinja_render (emailer_template T self) k v
                      = Ok body
                   /\ payload message = [(body, "plain")]) new).
    { eapply Forall_impl; [| exact Hall].
      intros message [k [v [addr [Hin [Hg [Ha Hc]]]]]].
      apply created_message in Hc.
      destruct Hc as [Hh [Hfrom [Hto [body [Hr Hp]]]]].
      exists k, v, addr, body. repeat split; assumption. }
    simpl. destruct (quit sf); simpl; (split; [exact Hl | exact Hnew]).
Qed.

(** X14. [send_mails] behaves the same on a mapping and on its flattening
    into one-entry dictionaries, which is what the script passes: both give
    the same dictionary of addresses. *)
Theorem send_mails_flattened_mapping (self : SecretSantaEmailer T)
    (matches : dict) (unformatted : list dict) (log : list log_entry) :
  make_email_dict (flatten_mapping unformatted) = make_email_dict unformatted
  /\ send_mails T jinja_render smtp SMTP starttls login send_message quit str
       self matches (flatten_mapping unformatted) log
     = send_mails T jinja_render smtp SMTP starttls login send_message quit
         str self matches unformatted log.
Proof.
  assert (H : make_email_dict (flatten_mapping unformatted)
              = make_email_dict unformatted).
  { unfold make_email_dict, flatten_mapping.
    now rewrite concat_singletons. }
  split; [exact H |]. unfold send_mails. now rewrite H.
Qed.

Lemma deliver_all_ok (self : SecretSantaEmailer T) (d : dict)
    (matches : dict) (server : smtp) (sent : list MIMEMultipart)
    (log : list log_entry) :
  (forall message s, snd (send_message message s) = None) ->
  (forall k v, In (k, v) matches ->
     exists addr, dict_get d k = Some addr /\ addr <> "") ->
  (forall k v, In (k, v) matches ->
     exists body,
       render T jinja_render (emailer_template T self) k v = Ok body) ->
  exists sf new,
    fold_left (deliver T jinja_render smtp send_message str self d) matches
      (server, sent, log)
    = (sf, sent ++ new,
       log ++ map (fun item =>
                     (INFO, ("Successfully sent assignment email to "
                             ++ fst item)%string)) matches)
    /\ Forall2
         (fun message item =>
            exists addr,
              dict_get d (fst item) = Some addr
              /\ _create_email_message T jinja_render self addr (fst item)
                   (snd item) = Ok message)
         new matches.
Proof.
  intros Hsend. revert server sent log.
  induction matches as [|[k v] rest IH]; intros server sent log Haddr Hrender.
  - exists server, []. simpl. rewrite !app_nil_r. split; [reflexivity |].
    constructor.
  - destruct (Haddr k v (or_introl eq_refl)) as [addr [Hg Ha]].
    destruct (Hrender k v (or_introl eq_refl)) as [body Hb].
    assert (Hc : exists message,
              _create_email_message T jinja_render self addr k v
              = Ok message).
    { unfold _create_email_message. rewrite Hb. now eexists. }
    destruct Hc as [message Hc].
    assert (Hd : deliver T jinja_render smtp send_message str self d
                   (server, sent, log) (k, v)
                 = (fst (send_message message server), sent ++ [message],
                    log ++ [(INFO, ("Successfully sent assignment email to "
                                    ++ k)%string)])).
    { unfold deliver. rewrite Hg.
      destruct (String.eqb_spec addr "") as [E|_]; [contradiction |].
      rewrite Hc. pose proof (Hsend message server) as Hs.
      destruct (send_message message server) as [server' o]. simpl in *.
      now subst o. }
    cbn [fold_left]. rewrite Hd.
    destruct (IH (fst (send_message message server)) (sent ++ [message])
                (log ++ [(INFO, ("Successfully sent assignment email to "
                                 ++ k)%string)]))
      as [sf [new [-> Hf]]].
    { intros k' v' Hin. apply (Haddr k' v'). now right. }
    { intros k' v' Hin. apply (Hrender k' v'). now right. }
    exists sf, (message :: new). rewrite <- !app_assoc. simpl.
    split; [reflexivity |]. constructor; [| exact Hf].
    exists addr. now split.
Qed.

(** X15. When the session opens and closes without an exception, the
    server accepts every message, every sender of the assignment has a
    non-empty address and the template renders for every entry,
    [send_mails] returns normally, sends exactly one message per entry, in
    the order of the assignment, each the message made for that entry and
    the address of its sender, and logs one success per entry. *)
Theorem send_mails_all_delivered (self : SecretSantaEmailer T)
    (matches : dict) (email_mapping : list dict) (log : list log_entry)
    (server : smtp) :
  SMTP (smtp_server (config T self)) (port (config T self)) = Ok server ->
  (forall s, snd (starttls s) = None) ->
  (forall u p s, snd (login u p s) = None) ->
  (forall message s, snd (send_message message s) = None) ->
  (forall s, quit s = None) ->
  (forall k v, In (k, v) matches ->
     exists addr,
       dict_get (make_email_dict email_mapping) k = Some addr
       /\ addr <> "") ->
  (forall k v, In (k, v) matches ->
     exists body,
       render T jinja_render (emailer_template T self) k v = Ok body) ->
  exists sent,
    send_mails T jinja_render smtp SMTP starttls login send_message quit str
      self matches email_mapping log
    = (None, sent,
       log ++ map (fun item =>
                     (INFO, ("Successfully sent assignment email to "
                             ++ fst item)%string)) matches)
    /\ Forall2
         (fun message item =>
            exists addr,
              dict_get (make_email_dict email_mapping) (fst item) = Some addr
              /\ _create_email_message T jinja_render self addr (fst item)
                   (snd item) = Ok message)
         sent matches.
Proof.
  intros H0 Htls Hlogin Hsend Hquit Haddr Hrender.
  unfold send_mails, session, session_body. rewrite H0.
  pose proof (Htls server) as H1.
  destruct (starttls server) as [s1 o1]. simpl in H1. subst o1.
  pose proof (Hlogin (username (config T self)) (password (config T self)) s1)
    as H2.
  destruct (login (username (config T self)) (password (config T self)) s1)
    as [s2 o2]. simpl in H2. subst o2.
  destruct (deliver_all_ok self (make_email_dict email_mapping) matches s2
              [] log Hsend Haddr Hrender) as [sf [new [-> Hf]]].
  rewrite Hquit. exists new. split; [reflexivity | exact Hf].
Qed.

End EmailerFacts.

Lemma send_mails_connection_failure_witness :
  exists e,
    send_mails string (fun t s rcp => Ok (t ++ s ++ rcp)%string) nat
      (fun _ _ => Raise (OtherError "ConnectionRefusedError"))
      (fun s => (s, None)) (fun _ _ s => (s, None))
      (fun _ s => (S s, None)) (fun _ => None)
      (fun _ => "refused")
      (mkSecretSantaEmailer string
         (mkEmailConfig "smtp.example.org" 587 "santa" "secret")
         (mkEmailTemplate string "hello "))
      [("A", "B"); ("B", "A")]
      [[("A", "a@example.org")]; [("B", "b@example.org")]] []
    = (Some e, [],
       [(ERROR, ("Failed to connect to email server: " ++ "refused")%string)]).
Proof.
  apply (send_mails_connection_failure string
           (fun t s rcp => Ok (t ++ s ++ rcp)%string) nat
           (fun _ _ => Raise (OtherError "ConnectionRefusedError"))
           (fun s => (s, None)) (fun _ _ s => (s, None))
           (fun _ s => (S s, None)) (fun _ => None)
           (fun _ => "refused")).
  left. now exists (OtherError "ConnectionRefusedError").
Defined.

Lemma send_mails_logs_every_entry_witness :
  exists entries,
    List.length entries = 2
    /\ snd (send_mails string (fun t s rcp => Ok (t ++ s ++ rcp)%string) nat
              (fun _ _ => Ok 0)
              (fun s => (s, None)) (fun _ _ s => (s, None))
              (fun _ s => (S s, match s with
                                | 0 => Some (OtherError "SMTPException")
                                | _ => None
                                end))
              (fun _ => None) (fun _ => "failed")
              (mkSecretSantaEmailer string
                 (mkEmailConfig "smtp.example.org" 587 "santa" "secret")
                 (mkEmailTemplate string "hello "))
              [("A", "B"); ("B", "A")]
              [[("A", "a@example.org")]; [("B", "b@example.org")]] [])
       = entries.
Proof.
  destruct (send_mails_logs_every_entry string
              (fun t s rcp => Ok (t ++ s ++ rcp)%string) nat
              (fun _ _ => Ok 0)
              (fun s => (s, None)) (fun _ _ s => (s, None))
              (fun _ s => (S s, match s with
                                | 0 => Some (OtherError "SMTPException")
                                | _ => None
                                end))
              (fun _ => None) (fun _ => "failed")
              (mkSecretSantaEmailer string
                 (mkEmailConfig "smtp.example.org" 587 "santa" "secret")
                 (mkEmailTemplate string "hello "))
              [("A", "B"); ("B", "A")]
              [[("A", "a@example.org")]; [("B", "b@example.org")]] []
              0 0 0 eq_refl eq_refl eq_refl) as [entries [Hf Hlog]].
  exists entries. split.
  - apply Forall2_length in Hf. exact Hf.
  - rewrite Hlog. simpl. now rewrite app_nil_r.
Defined.

Lemma send_mails_all_delivered_witness :
  exists sent,
    send_mails string (fun t s rcp => Ok (t ++ s ++ rcp)%string) nat
      (fun _ _ => Ok 0)
      (fun s => (s, None)) (fun _ _ s => (s, None))
      (fun _ s => (S s, None)) (fun _ => None) (fun _ => "failed")
      (mkSecretSantaEmailer string
         (mkEmailConfig "smtp.example.org" 587 "santa" "secret")
         (mkEmailTemplate string "hello "))
      [("A", "B"); ("B", "A")]
      [[("A", "a@example.org")]; [("B", "b@example.org")]] []
    = (None, sent,
       [(INFO, "Successfully sent assignment email to A");
        (INFO, "Successfully sent assignment email to B")])
    /\ List.length sent = 2.
Proof.
  destruct (send_mails_all_delivered string
              (fun t s rcp => Ok (t ++ s ++ rcp)%string) nat
              (fun _ _ => Ok 0)
              (fun s => (s, None)) (fun _ _ s => (s, None))
              (fun _ s => (S s, None)) (fun _ => None) (fun _ => "failed")
              (mkSecretSantaEmailer string
                 (mkEmailConfig "smtp.example.org" 587 "santa" "secret")
                 (mkEmailTemplate string "hello "))
              [("A", "B"); ("B", "A")]
              [[("A", "a@example.org")]; [("B", "b@example.org")]] []
              0 eq_refl (fun _ => eq_refl) (fun _ _ _ => eq_refl)
              (fun _ _ => eq_refl) (fun _ => eq_refl))
    as [sent [Hs Hf]].
  - intros k v [H|[H|[]]]; inversion H; subst; eexists;
      (split; [reflexivity | discriminate]).
  - intros k v _. eexists. reflexivity.
  - exists sent. split; [exact Hs |].
    apply Forall2_length in Hf. exact Hf.
Defined.

(** X16. Apart from the missing file, the constructor of [EmailTemplate]
    neither logs nor falls back: a custom file that can be read is compiled
    as it is (a failure to compile it escapes), an exception of reading
    other than [FileNotFoundError] escapes, and an absent or empty path
    gives the default template whatever the file system holds. The log is
    left as it was in all three cases. *)
Theorem template_loader_cases (T : Type) (Template : string -> result T)
    (read_file read_file' : string -> result string)
    (template_path : option string) (log : list log_record) :
  (forall path source,
     template_path = Some path -> path <> "" ->
     read_file path = Ok source ->
     Template source <> Raise FileNotFoundError ->
     EmailTemplate_init T Template read_file template_path log
     = (build T Template source, log))
  /\ (forall path name,
        template_path = Some path -> path <> "" ->
        read_file path = Raise (OtherError name) ->
        EmailTemplate_init T Template read_file template_path log
        = (Raise (OtherError name), log))
  /\ (truthy template_path = false ->
      EmailTemplate_init T Template read_file template_path log
      = (build T Template DEFAULT_TEMPLATE, log)
      /\ EmailTemplate_init T Template read_file' template_path log
         = EmailTemplate_init T Template read_file template_path log).
Proof.
  split; [| split].
  - intros path source -> Hne Hread Hcomp. unfold EmailTemplate_init, truthy.
    apply String.eqb_neq in Hne. rewrite Hne. simpl.
    unfold load_custom. rewrite Hread. unfold build.
    destruct (Template source) as [t|[|name]]; try reflexivity.
    congruence.
  - intros path name -> Hne Hread. unfold EmailTemplate_init, truthy.
    apply String.eqb_neq in Hne. rewrite Hne. simpl.
    unfold load_custom. rewrite Hread. reflexivity.
  - intros Hfalse. unfold EmailTemplate_init.
    destruct template_path as [path|]; [| split; reflexivity].
    rewrite Hfalse. split; reflexivity.
Qed.
